(** * deep-merge-changes: a shallow embedding of [src/lib/index.js]

    The library merges a "current" JavaScript value with a list of
    "changes" and promises to hand back the original reference whenever
    nothing changed.  Reference identity and in-place assignment are the
    whole point, so the embedding keeps an explicit object store:

    - a JavaScript value is a primitive or a reference into the store;
    - an object is its kind (a plain object, an array, or an object with
      a prototype of its own, together with what that prototype provides
      for [constructor]), its [length] when it is an array, and its own
      enumerable properties;
    - [value.constructor] reads the own property when there is one and
      the inherited one otherwise, and throws on [undefined] and [null];
    - every helper of the source that returns a new object computes that
      object, and the caller stores it with [alloc]; [Object.assign]
      writes its target in place;
    - a computation returns, or throws: a [TypeError] when a property of
      [undefined] or [null] is read, a [RangeError] when the recursion
      exceeds the stack, for which the fuel stands.

    Modelling boundaries: numbers are the integers and NaN (no fractions,
    no infinities, no signed zero); functions are not values, so no stored
    value is the function [Object]; an absent property reads [undefined]
    (a prototype is taken to provide [constructor] and methods only, and
    no test of the source tells an inherited method from [undefined]);
    the name [length], when [Object.assign] writes it onto an array, is
    stored like any other name, and the statements about what a call
    builds or returns are made for calls that never do so
    ([keeps_length], [length_free]); a property name that is not an array
    index converts to NaN under [Number]; [Object.keys] enumerates in the
    order of the finite map, which only affects the order in which fresh
    locations are handed out. *)

From stdpp Require Import gmap strings list fin_maps.

#[local] Set Warnings "-register-all".

Open Scope Z_scope.
Open Scope nat_scope.

(** ** Values, objects and the store *)

(** Property keys: canonical array indices and every other name. *)
Inductive key :=
  | KIdx (i : nat)
  | KName (s : string).

Global Instance key_eq_dec : EqDecision key.
Proof. solve_decision. Defined.

Global Instance key_countable : Countable key.
Proof.
  refine (inj_countable'
            (λ k, match k with KIdx i => inl i | KName s => inr s end)
            (λ x, match x with inl i => KIdx i | inr s => KName s end) _).
  by intros [].
Defined.

Definition loc := positive.

Inductive val :=
  | VUndefined
  | VNull
  | VBool (b : bool)
  | VNum (n : Z)
  | VNaN
  | VStr (s : string)
  | VOmit                       (* the unique symbol exported as OMIT *)
  | VRef (l : loc).

Global Instance val_eq_dec : EqDecision val.
Proof. solve_decision. Defined.

(** What reading [constructor] gives, as far as the comparisons with
    [Object] and with [null] can tell. *)
Inductive ctor :=
  | CtorObject                  (* the function Object *)
  | CtorNull                    (* null *)
  | CtorOther.                  (* anything else, undefined included *)

Global Instance ctor_eq_dec : EqDecision ctor.
Proof. solve_decision. Defined.

(** The kinds of objects. *)
Inductive objclass :=
  | ClsObject                   (* a plain object: a literal, new Object(),
                                   JSON.parse; it inherits constructor Object *)
  | ClsArray                    (* Array.isArray *)
  | ClsInstance (inherited : ctor).
                                (* an object with a prototype of its own: a
                                   Date, a Map, a Set, an instance of a class,
                                   Object.create(p); [inherited] is what the
                                   prototype chain provides for constructor:
                                   the class as a rule (CtorOther), Object when
                                   the prototype is an object literal, nothing
                                   for Object.create(null) (CtorOther) *)

Global Instance objclass_eq_dec : EqDecision objclass.
Proof. solve_decision. Defined.

Record obj := Obj {
  cls : objclass;
  alen : nat;                   (* [length]; meaningful for arrays only *)
  props : gmap key val
}.

Global Instance obj_eq_dec : EqDecision obj.
Proof. solve_decision. Defined.

Abbreviation heap := (gmap loc obj).

(** A computation returns a value and the store it leaves, or throws
    ([None]). *)
Definition M (A : Type) : Type := heap → option (A * heap).

Definition alloc (o : obj) (h : heap) : val * heap :=
  let l := fresh (dom h) in (VRef l, <[l := o]> h).

Definition empty_object : obj := Obj ClsObject 0 ∅.

Definition obj_at (h : heap) (v : val) : obj :=
  match v with
  | VRef l => default empty_object (h !! l)
  | _ => empty_object
  end.

(** [o[k]] *)
Definition get_of (o : obj) (k : key) : val := default VUndefined (props o !! k).
Definition get (h : heap) (v : val) (k : key) : val := get_of (obj_at h v) k.

(** [Object.keys(o)] *)
Definition keys_of (o : obj) : list key := (map_to_list (props o)).*1.
Definition keys (h : heap) (v : val) : list key := keys_of (obj_at h v).

(** [acc[key] = v]; an array grows when the index is past its end.  The
    name [length] is stored like any other, which is what the source does
    on every object but an array (see [keeps_length]). *)
Definition set_prop (k : key) (v : val) (o : obj) : obj :=
  Obj (cls o)
      (match cls o, k with
       | ClsArray, KIdx i => Nat.max (alen o) (S i)
       | _, _ => alen o
       end)
      (<[k := v]> (props o)).

(** [a === b]: NaN is not equal to itself. *)
Definition strict_eq (a b : val) : bool :=
  match a with
  | VNaN => false
  | _ => bool_decide (a = b)
  end.

(** [changes.reduce(f, init)] in the store monad. *)
Fixpoint reduceM {A B : Type} (f : A → B → M A) (l : list B) (a : A) : M A :=
  λ h,
    match l with
    | [] => Some (a, h)
    | b :: l' => '(a', h') ← f a b h; reduceM f l' a' h'
    end.

(** ** The helpers of [index.js] *)

(** [shallowEqual], lines 1-7. *)
Definition shallowEqual_of (current next : obj) : bool :=
  let currentKeys := keys_of current in
  bool_decide (length currentKeys = length (keys_of next))
  && forallb (λ key, strict_eq (get_of current key) (get_of next key)) currentKeys.

Definition shallowEqual (h : heap) (current next : val) : bool :=
  shallowEqual_of (obj_at h current) (obj_at h next).

(** [mapValues], lines 9-13: the callback may itself call the merge. *)
Definition mapValues (collection : val) (callback : val → key → M val) : M val :=
  λ h,
    '(acc, h') ← reduceM
        (λ acc key h1,
           '(v, h2) ← callback (get h1 collection key) key h1;
           Some (set_prop key v acc, h2))
        (keys h collection) empty_object h;
    Some (alloc acc h').

(** [pickBy], lines 15-22. *)
Definition pickBy_of (collection : obj) (predicate : val → key → bool) : obj :=
  foldl (λ acc key,
           if predicate (get_of collection key) key
           then set_prop key (get_of collection key) acc
           else acc)
        empty_object (keys_of collection).

Definition pickBy (h : heap) (collection : val) (predicate : val → key → bool) : obj :=
  pickBy_of (obj_at h collection) predicate.

(** [isCollection], lines 24-29. *)
Definition truthy (v : val) : bool :=
  match v with
  | VUndefined | VNull => false
  | VBool b => b
  | VNum n => negb (n =? 0)%Z
  | VNaN => false
  | VStr s => negb (String.eqb s "")
  | VOmit | VRef _ => true
  end.

Inductive jstype := TyUndefined | TyObject | TyBoolean | TyNumber | TyString | TySymbol.

Definition typeof (v : val) : jstype :=
  match v with
  | VUndefined => TyUndefined
  | VNull | VRef _ => TyObject
  | VBool _ => TyBoolean
  | VNum _ | VNaN => TyNumber
  | VStr _ => TyString
  | VOmit => TySymbol
  end.

Definition class_at (h : heap) (v : val) : option objclass :=
  match v with
  | VRef l => cls <$> h !! l
  | _ => None
  end.

Definition isArray (h : heap) (v : val) : bool :=
  bool_decide (class_at h v = Some ClsArray).

(** [o.constructor] for an object: the own property when there is one,
    else what the prototype chain provides. *)
Definition constructor_of (o : obj) : ctor :=
  match props o !! KName "constructor" with
  | Some VNull => CtorNull
  | Some _ => CtorOther
  | None =>
      match cls o with
      | ClsObject => CtorObject
      | ClsArray => CtorOther
      | ClsInstance inherited => inherited
      end
  end.

(** [value.constructor]: throws on [undefined] and [null]; a primitive
    reads the constructor of its wrapper. *)
Definition constructor (h : heap) (value : val) : option ctor :=
  match value with
  | VUndefined | VNull => None
  | VRef l =>
      match h !! l with
      | Some o => Some (constructor_of o)
      | None => Some CtorOther
      end
  | _ => Some CtorOther
  end.

Definition isCollection (h : heap) (value : val) : option bool :=
  if truthy value then
    match typeof value with
    | TyObject =>
        c ← constructor h value;
        Some (bool_decide (c = CtorObject) || bool_decide (c = CtorNull)
              || isArray h value)
    | _ => Some false
    end
  else Some false.

(** Whether an object is a collection, and whether a value is one: what
    [isCollection] returns, as the properties below show. *)
Definition is_coll (o : obj) : bool :=
  bool_decide (constructor_of o = CtorObject)
  || bool_decide (constructor_of o = CtorNull)
  || bool_decide (cls o = ClsArray).

Definition collection (h : heap) (value : val) : bool :=
  match value with
  | VRef l =>
      match h !! l with
      | Some o => is_coll o
      | None => false
      end
  | _ => false
  end.

Global Arguments collection : simpl never.

(** [Array.prototype.filter]: visits the indices below [length] that are
    present, in order, and pushes the kept elements onto a new array. *)
Definition array_of_list (vs : list val) : obj :=
  Obj ClsArray (length vs) (list_to_map (imap (λ i v, (KIdx i, v)) vs)).

Definition Array_filter (o : obj) (predicate : val → key → bool) : obj :=
  array_of_list
    (omap (λ i, match props o !! KIdx i with
                | Some v => if predicate v (KIdx i) then Some v else None
                | None => None
                end)
          (seq 0 (alen o))).

(** [filter], lines 31-34. *)
Definition filter_of (collection : obj) (predicate : val → key → bool) : obj :=
  match cls collection with
  | ClsArray => Array_filter collection predicate
  | _ => pickBy_of collection predicate
  end.

Definition filter (h : heap) (collection : val) (predicate : val → key → bool) : obj :=
  filter_of (obj_at h collection) predicate.

(** The numbers that [Math.max(...Object.keys(o))] can produce. *)
Inductive number :=
  | NaN
  | NegInfinity
  | Num (n : nat).

Definition Number (k : key) : number :=
  match k with
  | KIdx i => Num i
  | KName _ => NaN
  end.

Definition max2 (a b : number) : number :=
  match a, b with
  | NaN, _ | _, NaN => NaN
  | NegInfinity, x | x, NegInfinity => x
  | Num m, Num n => Num (Nat.max m n)
  end.

Definition Math_max (args : list number) : number := foldl max2 NegInfinity args.

(** [array.slice(0, stop)]: a new array with the properties below the
    clamped bound; holes stay holes, other names are not copied. *)
Definition slice_bound (stop : number) (len : nat) : nat :=
  match stop with
  | NaN | NegInfinity => 0
  | Num n => Nat.min n len
  end.

Definition below (bound : nat) (k : key) : bool :=
  match k with
  | KIdx i => bool_decide (i < bound)
  | KName _ => false
  end.

Definition truncate (o : obj) (bound : nat) : obj :=
  Obj ClsArray bound (base.filter (λ kv, below bound kv.1 = true) (props o)).

Definition slice (h : heap) (array : val) (stop : number) : obj :=
  let o := obj_at h array in truncate o (slice_bound stop (alen o)).

(** [Object.assign(target, source)]: writes the target in place. *)
Definition assign_of (target source : obj) : obj :=
  foldl (λ acc key, set_prop key (get_of source key) acc) target (keys_of source).

Definition Object_assign (target source : val) (h : heap) : val * heap :=
  match target with
  | VRef l =>
      match h !! l with
      | Some o => (target, <[l := assign_of o (obj_at h source)]> h)
      | None => (target, h)
      end
  | _ => (target, h)
  end.

(** ** [deepMergeChanges], lines 38-62 *)

(** The reducer, with the recursive call as a parameter. *)
Definition reducer (recur : val → val → M val) (current next : val) : M val :=
  λ h,
    both ← (isCollection h current ≫= λ c : bool,
              if c then isCollection h next else Some false);
    if (both : bool) then
      let '(filteredCurrent, h1) :=
        alloc (filter h current
                 (λ value key, negb (strict_eq (get h next key) VOmit))) h in
      let '(filteredNext, h2) :=
        alloc (pickBy h1 next (λ value key, negb (strict_eq value VOmit))) h1 in
      let '(filteredCurrent, h3) :=
        if isArray h2 current && isArray h2 next
        then alloc (slice h2 filteredCurrent
                      (Math_max (Number <$> keys h2 filteredNext))) h2
        else (filteredCurrent, h2) in
      '(mapped, h4) ← mapValues filteredNext
          (λ value key h', recur (get h' current key) value h') h3;
      let '(merged, h5) := Object_assign filteredCurrent mapped h4 in
      Some (if shallowEqual h5 current merged then current else merged, h5)
    else Some (next, h).

(** Fuel bounds the nesting depth of the recursive calls only. *)
Fixpoint deepMergeChanges (fuel : nat) (current : val) (changes : list val) : M val :=
  reduceM
    (reducer (λ c v h,
                match fuel with
                | O => None
                | S n => deepMergeChanges n c [v] h
                end))
    changes current.

(** The recursive call of line 54, as the reducer at a given fuel sees it. *)
Definition nested (fuel : nat) : val → val → M val :=
  λ c v h,
    match fuel with
    | O => None
    | S n => deepMergeChanges n c [v] h
    end.

(** ** Well-formed stores *)

(** A reference is live in [g] when [g] holds its object. *)
Definition val_in (g : heap) (v : val) : Prop :=
  match v with
  | VRef l => is_Some (g !! l)
  | _ => True
  end.

Global Instance val_in_dec g v : Decision (val_in g v).
Proof. destruct v; simpl; apply _. Defined.

(** A store is closed when every stored reference is live in it. *)
Definition closed (g : heap) : Prop :=
  map_Forall (λ _ o, map_Forall (λ _ v, val_in g v) (props o)) g.

Global Instance closed_dec g : Decision (closed g).
Proof. unfold closed. apply _. Defined.

(** The live part [g] of the store [h] before a call becomes the live
    part [g'] of the store [h'] after it, holding the result [r]; what
    [g'] adds was allocated by the call. *)
Definition extends (g h g' h' : heap) (r : val) : Prop :=
  g ⊆ g' ∧ g' ⊆ h' ∧ closed g' ∧ val_in g' r
  ∧ ∀ l, is_Some (g' !! l) → is_Some (h !! l) → is_Some (g !! l).

(** ** The objects one reducer step builds

    These name the intermediate objects of lines 41-56 so that the
    properties below can speak about them. *)

(** [filteredNext]: line 42. *)
Definition filteredNext_of (next : obj) : obj :=
  pickBy_of next (λ value _, negb (strict_eq value VOmit)).

(** [filteredCurrent] as it enters [Object.assign]: lines 41 and 44-49. *)
Definition filteredCurrent_of (current next : obj) : obj :=
  let filteredCurrent :=
    filter_of current (λ _ key, negb (strict_eq (get_of next key) VOmit)) in
  if bool_decide (cls current = ClsArray) && bool_decide (cls next = ClsArray)
  then truncate filteredCurrent
         (slice_bound (Math_max (Number <$> keys_of (filteredNext_of next)))
                      (alen filteredCurrent))
  else filteredCurrent.

(** The accumulator of [mapValues] after the given assignments. *)
Definition mapped_of (rs : list (key * val)) : obj :=
  foldl (λ acc kv, set_prop kv.1 kv.2 acc) empty_object rs.

(** The successive callback runs of [mapValues]: run [f k] for each key in
    turn, each run starting in the store the previous one left. *)
Fixpoint chain (f : key → M val) (ks : list key) (h h' : heap)
    (rs : list (key * val)) : Prop :=
  match ks, rs with
  | [], [] => h' = h
  | k :: ks', (k', r) :: rs' =>
      k' = k ∧ ∃ hm, f k h = Some (r, hm) ∧ chain f ks' hm h' rs'
  | _, _ => False
  end.

(** ** Deep equality and subtrees *)

(** Deep equality of a value of store [h1] and a value of store [h2]:
    primitives by value (NaN is deep-equal to NaN), opaque objects by
    identity, collections by class, length, key set and deep equality of
    the values under each key. *)
Fixpoint deepEqual (fuel : nat) (h1 : heap) (v1 : val) (h2 : heap) (v2 : val) : bool :=
  match v1, v2 with
  | VRef l1, VRef l2 =>
      match h1 !! l1, h2 !! l2 with
      | Some o1, Some o2 =>
          if is_coll o1 && is_coll o2 then
            match fuel with
            | O => false
            | S n =>
                bool_decide (cls o1 = cls o2)
                && bool_decide (cls o1 = ClsArray → alen o1 = alen o2)
                && bool_decide (dom (props o1) = dom (props o2))
                && forallb (λ k, deepEqual n h1 (get_of o1 k) h2 (get_of o2 k))
                           (keys_of o1)
            end
          else bool_decide (l1 = l2)
      | _, _ => false
      end
  | _, _ => bool_decide (v1 = v2)
  end.

(** The subtree of [v] under a path of keys; only collections have
    subtrees. *)
Fixpoint lookup_path (h : heap) (v : val) (p : list key) : option val :=
  match p with
  | [] => Some v
  | k :: p' =>
      match v with
      | VRef l =>
          o ← h !! l;
          if is_coll o then v' ← props o !! k; lookup_path h v' p' else None
      | _ => None
      end
  end.

(** No entry of the object is NaN. *)
Definition nan_free (o : obj) : bool :=
  forallb (λ k, negb (bool_decide (get_of o k = VNaN))) (keys_of o).

(** The merge of [current] with the change [next] meets no NaN and shifts
    no index: wherever it meets a collection of [current], no entry of
    that collection is NaN, and when the collection is a sequence it has
    no holes and [next] marks none of its indices for removal. *)
Definition dense (o : obj) : bool :=
  forallb (λ i, bool_decide (is_Some (props o !! KIdx i))) (seq 0 (alen o)).

Definition unmarked (current next : obj) : bool :=
  forallb (λ i, negb (strict_eq (get_of next (KIdx i)) VOmit)) (seq 0 (alen current)).

Fixpoint steady (fuel : nat) (h : heap) (current next : val) : bool :=
  match current, next with
  | VRef lc, VRef ln =>
      match h !! lc, h !! ln with
      | Some oc, Some on =>
          if is_coll oc && is_coll on then
            match fuel with
            | O => false
            | S n =>
                nan_free oc
                && (if bool_decide (cls oc = ClsArray)
                    then dense oc && unmarked oc on else true)
                && forallb (λ k, steady n h (get_of oc k)
                                   (get_of (filteredNext_of on) k))
                           (keys_of (filteredNext_of on))
            end
          else true
      | _, _ => true
      end
  | _, _ => true
  end.

(** What a single merge promises: a subtree of the result that is
    deep-equal to the subtree of [current] under the same path is that
    very subtree. *)
Definition shares (run : val → val → M val) : Prop :=
  ∀ current next h r h' g m,
    run current next h = Some (r, h') →
    g ⊆ h → closed g → val_in g current → val_in g next →
    steady m g current next = true →
    ∀ p v v' n,
      lookup_path h' r p = Some v' → lookup_path g current p = Some v →
      deepEqual n h' v' g v = true → v' = v.

(** ** Where the removal marker sits *)

(** [v] holds no marker, at any depth. *)
Fixpoint omit_free (fuel : nat) (h : heap) (v : val) : bool :=
  match v with
  | VOmit => false
  | VRef l =>
      match h !! l with
      | Some o =>
          if is_coll o then
            match fuel with
            | O => false
            | S n => forallb (λ k, omit_free n h (get_of o k)) (keys_of o)
            end
          else true
      | None => true
      end
  | _ => true
  end.

(** Every marker of the change [next] is a direct entry of a collection
    that the merge combines with a collection of [current]; a part of the
    change that replaces a non-collection holds no marker at all. *)
Fixpoint guarded (fuel : nat) (h : heap) (current next : val) : bool :=
  match next with
  | VOmit => false
  | VRef ln =>
      match h !! ln with
      | Some on =>
          if is_coll on then
            if collection h current then
              match fuel with
              | O => false
              | S n =>
                  forallb (λ k, guarded n h (get h current k)
                                  (get_of (filteredNext_of on) k))
                          (keys_of (filteredNext_of on))
              end
            else omit_free fuel h next
          else true
      | None => true
      end
  | _ => true
  end.

(** What a merge promises about the marker. *)
Definition clean (run : val → val → M val) : Prop :=
  ∀ current next h r h' g m m',
    run current next h = Some (r, h') →
    g ⊆ h → closed g → val_in g current → val_in g next →
    omit_free m g current = true → guarded m' g current next = true →
    ∀ p, lookup_path h' r p ≠ Some VOmit.

(** ** Fuel that suffices *)

(** The change [next] nests at most [fuel] levels of recursive calls:
    every entry that survives the marker filter triggers one. *)
Fixpoint fits (fuel : nat) (h : heap) (next : val) : bool :=
  match next with
  | VRef l =>
      match h !! l with
      | Some o =>
          if is_coll o then
            match fuel with
            | O => bool_decide (keys_of (filteredNext_of o) = [])
            | S n => forallb (λ k, fits n h (get_of o k)) (keys_of (filteredNext_of o))
            end
          else true
      | None => true
      end
  | _ => true
  end.

(** ** Where [Object.assign] would write the name [length]

    On an array the source's [Object.assign] (line 51) does not store an
    entry named [length]: it sets the array's length, which truncates the
    array, extends it with holes, or throws a [RangeError].  [set_prop]
    stores the name like any other, so the statements about what a call
    builds or returns are made for the calls on which line 51 never has
    that name to write onto an array. *)

(** The merge of [current] with the change [next] assigns no [length] to
    an array: wherever a collection of the change meets an array of
    [current], that collection has no entry named [length], a marked one
    apart (line 42 drops it).  The descent follows line 54: the entry of
    the change under a key meets the entry of [current] under that key. *)
Fixpoint keeps_length (fuel : nat) (h : heap) (current next : val) : bool :=
  match current, next with
  | VRef lc, VRef ln =>
      match h !! lc, h !! ln with
      | Some oc, Some on =>
          if is_coll oc && is_coll on then
            (if bool_decide (cls oc = ClsArray)
             then bool_decide (props (filteredNext_of on) !! KName "length" = None)
             else true)
            && match fuel with
               | O => true
               | S n =>
                   forallb (λ k, keeps_length n h (get_of oc k) (get_of on k))
                           (keys_of (filteredNext_of on))
               end
          else true
      | _, _ => true
      end
  | _, _ => true
  end.

(** The same for a change that may meet any [current]: none of its
    collections has an entry named [length], a marked one apart. *)
Fixpoint length_free (fuel : nat) (h : heap) (next : val) : bool :=
  match next with
  | VRef l =>
      match h !! l with
      | Some o =>
          if is_coll o then
            bool_decide (props (filteredNext_of o) !! KName "length" = None)
            && match fuel with
               | O => true
               | S n =>
                   forallb (λ k, length_free n h (get_of o k))
                           (keys_of (filteredNext_of o))
               end
          else true
      | None => true
      end
  | _ => true
  end.

(** ** The merge of two sequences, as the specification words it *)

(** The numeric keys of an object. *)
Definition numeric_keys (o : obj) : list nat :=
  omap (λ k, match k with KIdx i => Some i | KName _ => None end) (keys_of o).

(** "max(numeric keys present in filteredNext) + 1, or 0 if filteredNext
    has no numeric keys". *)
Definition spec_length (filteredNext : obj) : nat :=
  match numeric_keys filteredNext with
  | [] => 0
  | i :: rest => S (foldr Nat.max i rest)
  end.

(** "Truncate filteredCurrent to that length, then assign the recursed
    values over it by index": [mapped] holds the recursed values. *)
Definition spec_sequence_merge (current next mapped : obj) : obj :=
  let filteredCurrent :=
    Array_filter current (λ _ key, negb (strict_eq (get_of next key) VOmit)) in
  let filteredNext := filteredNext_of next in
  assign_of
    (truncate filteredCurrent
       (Nat.min (spec_length filteredNext) (alen filteredCurrent)))
    mapped.

(** One more than the largest index among the keys, 0 without an index. *)
Definition bound (ks : list key) : nat :=
  foldr (λ k n, match k with KIdx i => Nat.max (S i) n | KName _ => n end) 0 ks.

(** The keys of the object are indices below its length (it may have
    holes): what [Object.keys] gives for an array without extra names. *)
Definition index_key (len : nat) (k : key) : Prop :=
  match k with
  | KIdx i => i < len
  | KName _ => False
  end.

Global Instance index_key_dec len k : Decision (index_key len k).
Proof. destruct k; simpl; apply _. Defined.

Definition index_keyed (o : obj) : Prop :=
  map_Forall (λ k _, index_key (alen o) k) (props o).

Global Instance index_keyed_dec o : Decision (index_keyed o).
Proof. unfold index_keyed. apply _. Defined.

(** The names of the object are array indices: a record whose keys are
    numeric index strings. *)
Definition index_name (k : key) : Prop :=
  match k with
  | KIdx _ => True
  | KName _ => False
  end.

Global Instance index_name_dec k : Decision (index_name k).
Proof. destruct k; simpl; apply _. Defined.

Definition index_names (o : obj) : Prop :=
  map_Forall (λ k _, index_name k) (props o).

Global Instance index_names_dec o : Decision (index_names o).
Proof. unfold index_names. apply _. Defined.

(** A sequence proper: an array whose keys are exactly the indices below
    its length. *)
Definition proper_sequence (o : obj) : Prop :=
  cls o = ClsArray ∧ index_keyed o ∧ dense o = true.

Global Instance proper_sequence_dec o : Decision (proper_sequence o).
Proof. unfold proper_sequence. apply _. Defined.

(** ** Literals, for writing down inputs and expected outputs *)

Inductive lit :=
  | LUndefined
  | LNull
  | LBool (b : bool)
  | LNum (n : Z)
  | LNaN
  | LStr (s : string)
  | LOmit
  | LObj (fields : list (key * lit))
  | LArr (items : list lit).

(** Evaluating a literal allocates its collections, children first. *)
Fixpoint store (t : lit) (h : heap) : val * heap :=
  match t with
  | LUndefined => (VUndefined, h)
  | LNull => (VNull, h)
  | LBool b => (VBool b, h)
  | LNum n => (VNum n, h)
  | LNaN => (VNaN, h)
  | LStr s => (VStr s, h)
  | LOmit => (VOmit, h)
  | LObj fields =>
      let fix go (fs : list (key * lit)) (acc : obj) (h : heap) : obj * heap :=
        match fs with
        | [] => (acc, h)
        | (k, t') :: fs' =>
            let '(v, h') := store t' h in go fs' (set_prop k v acc) h'
        end in
      let '(o, h') := go fields empty_object h in alloc o h'
  | LArr items =>
      let fix go (ts : list lit) (i : nat) (acc : obj) (h : heap) : obj * heap :=
        match ts with
        | [] => (acc, h)
        | t' :: ts' =>
            let '(v, h') := store t' h in go ts' (S i) (set_prop (KIdx i) v acc) h'
        end in
      let '(o, h') := go items 0 (Obj ClsArray 0 ∅) h in alloc o h'
  end.

(** [matches h v t]: the value [v] of store [h] is the literal [t]
    (same shape, same keys, same length, same primitives). *)
Fixpoint matches (h : heap) (v : val) (t : lit) : bool :=
  match t with
  | LUndefined => bool_decide (v = VUndefined)
  | LNull => bool_decide (v = VNull)
  | LBool b => bool_decide (v = VBool b)
  | LNum n => bool_decide (v = VNum n)
  | LNaN => bool_decide (v = VNaN)
  | LStr s => bool_decide (v = VStr s)
  | LOmit => bool_decide (v = VOmit)
  | LObj fields =>
      bool_decide (class_at h v = Some ClsObject)
      && bool_decide (length (keys h v) = length fields)
      && (fix go (fs : list (key * lit)) : bool :=
            match fs with
            | [] => true
            | (k, t') :: fs' =>
                bool_decide (is_Some (props (obj_at h v) !! k))
                && matches h (get h v k) t' && go fs'
            end) fields
  | LArr items =>
      bool_decide (class_at h v = Some ClsArray)
      && bool_decide (alen (obj_at h v) = length items)
      && bool_decide (length (keys h v) = length items)
      && (fix go (ts : list lit) (i : nat) : bool :=
            match ts with
            | [] => true
            | t' :: ts' =>
                bool_decide (is_Some (props (obj_at h v) !! KIdx i))
                && matches h (get h v (KIdx i)) t' && go ts' (S i)
            end) items 0
  end.

Definition N (n : Z) : lit := LNum n.
Definition fld (s : string) (t : lit) : key * lit := (KName s, t).
Definition idx (i : nat) (t : lit) : key * lit := (KIdx i, t).


(** A current value and its changes, stored one after the other in the
    empty store, as a caller that writes them as literals would. *)
Fixpoint store_all (ts : list lit) (h : heap) : list val * heap :=
  match ts with
  | [] => ([], h)
  | t :: ts' =>
      let '(v, h1) := store t h in
      let '(vs, h2) := store_all ts' h1 in (v :: vs, h2)
  end.

Record scene := Scene {
  s_current : val;
  s_changes : list val;
  s_heap : heap
}.

Definition setup (current : lit) (changes : list lit) : scene :=
  let '(c, h) := store current ∅ in
  let '(cs, h') := store_all changes h in Scene c cs h'.

(** The result of the call on a scene, when [fuel] suffices. *)
Definition call (fuel : nat) (s : scene) : option (val * heap) :=
  deepMergeChanges fuel (s_current s) (s_changes s) (s_heap s).

(** The outcome of the call on a scene, and reads that default to
    [undefined], for stating facts about a concrete run. *)
Definition result (fuel : nat) (s : scene) : val :=
  (default (VUndefined, ∅) (call fuel s)).1.
Definition final (fuel : nat) (s : scene) : heap :=
  (default (VUndefined, ∅) (call fuel s)).2.
Definition at_path (h : heap) (v : val) (p : list key) : val :=
  default VUndefined (lookup_path h v p).
Definition change (s : scene) : val := default VUndefined (head (s_changes s)).

(** ** Example scenes *)

Definition scene_nested_patch : scene :=
  setup (LObj [fld "a" (LObj [fld "x" (N 1)]); fld "b" (LArr [N 1; N 2]); fld "c" (N 5)])
        [LObj [fld "a" (LObj [fld "x" (N 1)]); fld "b" (LObj [idx 1 (N 2)]); fld "c" (N 6)]].

(** A change and the change that reverts it. *)
Definition scene_reverted : scene :=
  setup (LObj [fld "x" (N 1)]) [LObj [fld "x" (N 2)]; LObj [fld "x" (N 1)]].

(** Removing index 0 of a sequence of two empty records while patching
    index 1 with an empty record. *)
Definition scene_shifted : scene :=
  setup (LArr [LObj []; LObj []]) [LObj [idx 0 LOmit; idx 1 (LObj [])]].

(** Removing a key that holds [undefined] while adding another one that
    holds [undefined]. *)
Definition scene_undefined_swap : scene :=
  setup (LObj [fld "a" LUndefined]) [LObj [fld "a" LOmit; fld "b" LUndefined]].

(** A marker inside a record that replaces a number. *)
Definition scene_marker_leaf : scene :=
  setup (LObj [fld "x" (N 1)]) [LObj [fld "x" (LObj [fld "a" LOmit])]].

(** A marker that removes a key of a nested record, next to a new record. *)
Definition scene_guarded : scene :=
  setup (LObj [fld "x" (LObj [fld "a" (N 1); fld "b" (N 2)]); fld "y" (N 1)])
        [LObj [fld "x" (LObj [fld "a" LOmit]); fld "z" (LObj [fld "c" (N 1)])]].

(** Adding a key, then removing it again. *)
Definition scene_add_then_remove : scene :=
  setup (LObj [fld "a" (N 1)]) [LObj [fld "b" (N 2)]; LObj [fld "b" LOmit]].

(** Removing a key that [current] does not have. *)
Definition scene_remove_absent : scene :=
  setup (LObj [fld "a" (N 1)]) [LObj [fld "zz" LOmit]].

(** A store with one opaque object (a Date, say) and one record. *)
Definition heap_with_date : heap :=
  <[2%positive := Obj ClsObject 0 {[KName "x" := VNum 1]}]>
    {[1%positive := Obj (ClsInstance CtorOther) 0 ∅]}.

(** A store with an object that is not plain although its constructor
    reads [Object] (an instance of a function whose prototype is an object
    literal, or Object.create of one), and a record to patch it with. *)
Definition heap_with_instance : heap :=
  <[2%positive := Obj ClsObject 0 {[KName "x" := VNum 5]}]>
    {[1%positive := Obj (ClsInstance CtorObject) 0
                      {[KName "x" := VNum 1; KName "y" := VNum 2]}]}.

(** A record that holds NaN, and a change that says the same. *)
Definition scene_nan : scene :=
  setup (LObj [fld "a" LNaN]) [LObj [fld "a" LNaN]].

(** A plain record with an own property [constructor], and the empty
    change [{}]. *)
Definition heap_with_own_constructor : heap :=
  <[2%positive := Obj ClsObject 0 ∅]>
    {[1%positive := Obj ClsObject 0 {[KName "constructor" := VNum 1;
                                      KName "a" := VNum 1]}]}.

(** Two sequences, the change marking its middle index for removal. *)
Definition scene_sequences : scene :=
  setup (LArr [N 1; N 2; N 3; N 4]) [LArr [N 7; LOmit; N 9]].

(** Two sequences, the change marking its first two indices for removal. *)
Definition scene_sequences_shift : scene :=
  setup (LArr [N 1; N 2; N 3; N 4]) [LArr [LOmit; LOmit; N 9]].

(** The README's index patch, index removal, and a patch that does both. *)
Definition scene_index_patch : scene :=
  setup (LObj [fld "y" (LArr [N 1; N 2; N 3])]) [LObj [fld "y" (LObj [idx 0 (N 4)])]].
Definition scene_index_removal : scene :=
  setup (LObj [fld "y" (LArr [N 1; N 2; N 3])]) [LObj [fld "y" (LObj [idx 1 LOmit])]].
Definition scene_mixed_patch : scene :=
  setup (LObj [fld "y" (LArr [N 1; N 2; N 3])])
        [LObj [fld "y" (LObj [idx 0 LOmit; idx 1 (N 9)])]].

(** The elements of a sequence that a patch does not mark, in order. *)
Definition kept_elements (current next : obj) : list val :=
  omap (λ i, match props current !! KIdx i with
             | Some v =>
                 if negb (strict_eq (get_of next (KIdx i)) VOmit) then Some v else None
             | None => None
             end)
       (seq 0 (alen current)).

(** A patch of one index, applied to the sequence itself. *)
Definition scene_patch_top : scene :=
  setup (LArr [N 1; N 2; N 3]) [LObj [idx 0 (N 4)]].

(** ** Notions for the further properties *)

(** The elements of an array, in index order, holes skipped: what
    [forEach] would visit. *)
Definition elements (o : obj) : list val :=
  omap (λ i, props o !! KIdx i) (seq 0 (alen o)).

(** No own property holds [undefined]. *)
Definition defined (o : obj) : Prop :=
  map_Forall (λ _ v, v ≠ VUndefined) (props o).

Global Instance defined_dec o : Decision (defined o).
Proof. unfold defined. apply _. Defined.

(** The change [next] restates [current]: every value it holds is a value
    that [current] already has at the same place.  A primitive or opaque
    entry is identical to the entry of [current]; a collection sits
    opposite a collection of [current] that has each of its keys, with
    entries that are restated in turn, and holds no marker.  A collection
    of [current] that is met has no entry that is NaN; when it is an array
    it has neither holes nor extra names, and an array of the change
    opposite to it reaches its last element. *)
Fixpoint restates (fuel : nat) (h : heap) (current next : val) : bool :=
  match next with
  | VRef ln =>
      match h !! ln with
      | Some on =>
          if is_coll on then
            match current with
            | VRef lc =>
                match h !! lc with
                | Some oc =>
                    is_coll oc
                    && nan_free oc
                    && (if bool_decide (cls oc = ClsArray)
                        then bool_decide (proper_sequence oc)
                             && (if bool_decide (cls on = ClsArray)
                                 then bool_decide (bound (keys_of on) = alen oc)
                                 else true)
                        else true)
                    && forallb (λ k,
                         bool_decide (is_Some (props oc !! k))
                         && negb (strict_eq (get_of on k) VOmit)
                         && match fuel with
                            | O => false
                            | S n => restates n h (get_of oc k) (get_of on k)
                            end)
                       (keys_of on)
                | None => false
                end
            | _ => false
            end
          else bool_decide (current = next)
      | None => false
      end
  | _ => bool_decide (current = next)
  end.

(** ** Further example inputs *)

(** An array with a hole at index 1. *)
Definition array_with_hole : obj :=
  Obj ClsArray 4 {[KIdx 0 := VNum 1; KIdx 2 := VNum 3; KIdx 3 := VNum 4]}.

(** A record that holds itself, and a change two levels deep. *)
Definition heap_with_cycle : heap :=
  <[3%positive := Obj ClsObject 0 {[KName "self" := VRef 4%positive]}]>
    (<[4%positive := Obj ClsObject 0 {[KName "x" := VNum 2]}]>
       {[1%positive := Obj ClsObject 0 {[KName "self" := VRef 1%positive;
                                          KName "x" := VNum 1]}]}).

(** A record patched by an array. *)
Definition scene_record_by_sequence : scene :=
  setup (LObj [fld "a" (N 1)]) [LArr [N 5]].

(** A change that removes one key and rewrites another. *)
Definition scene_record_patch : scene :=
  setup (LObj [fld "x" (N 1); fld "y" (N 1); fld "z" (N 1)])
        [LObj [fld "y" LOmit; fld "z" (N 2)]].

(** A run on the README's removal example. *)
Definition scene_removal : scene :=
  setup (LObj [fld "x" (N 1); fld "y" (N 1); fld "z" (N 1)]) [LObj [fld "y" LOmit]].

(** The record [{a: 1}], and as the change an array that was given an own
    property [constructor]. *)
Definition heap_with_marked_array : heap :=
  <[2%positive := Obj ClsArray 0 {[KName "constructor" := VNum 5]}]>
    {[1%positive := Obj ClsObject 0 {[KName "a" := VNum 1]}]}.

(** [[1, 2, 3]] and the change [[ , 9]], whose index 0 is a hole. *)
Definition heap_sparse_change : heap :=
  <[2%positive := Obj ClsArray 2 {[KIdx 1 := VNum 9]}]>
    {[1%positive := Obj ClsArray 3 {[KIdx 0 := VNum 1; KIdx 1 := VNum 2;
                                      KIdx 2 := VNum 3]}]}.

(** A patch that removes index 0 and writes index 1, on the array itself. *)
Definition scene_mixed_top : scene :=
  setup (LArr [N 1; N 2; N 3]) [LObj [idx 0 LOmit; idx 1 (N 9)]].

(** Two changes that say what [current] says already. *)
Definition scene_restated : scene :=
  setup (LObj [fld "x" (N 1); fld "z" (LArr [LObj [fld "a" (N 1)]; N 2])])
        [LObj [fld "x" (N 1)]; LObj [fld "z" (LArr [LObj [fld "a" (N 1)]; N 2])]].

(** Closed goals about concrete scenes are settled by evaluation. *)
Ltac by_evaluation := vm_compute; reflexivity.
Ltac by_decision := apply (bool_decide_unpack _); vm_compute; exact I.

(** * Properties *)

(** ** The store: allocation and reads *)

Section store_facts.
Implicit Types (h : heap) (o : obj) (v : val) (k : key) (l : loc).

Lemma alloc_eq o h :
  alloc o h = (VRef (fresh (dom h)), <[fresh (dom h) := o]> h).
Proof. reflexivity. Qed.

Lemma fresh_None h : h !! fresh (dom h) = None.
Proof. apply not_elem_of_dom, is_fresh. Qed.

Lemma alloc_subseteq o h : h ⊆ <[fresh (dom h) := o]> h.
Proof. apply insert_subseteq, fresh_None. Qed.

Lemma class_at_Some h v c :
  class_at h v = Some c → ∃ l o, v = VRef l ∧ h !! l = Some o ∧ cls o = c.
Proof.
  destruct v; try discriminate. simpl.
  destruct (h !! l) as [o|] eqn:E; [|discriminate].
  intros [= <-]. eauto.
Qed.

Lemma collection_Some h v :
  collection h v = true →
  ∃ l o, v = VRef l ∧ h !! l = Some o ∧ is_coll o = true.
Proof.
  destruct v as [| | | | | | |l]; try done. unfold collection.
  destruct (h !! l) as [o|] eqn:Hl; [|done]. eauto.
Qed.

Lemma collection_ref h l o :
  h !! l = Some o → collection h (VRef l) = is_coll o.
Proof. intros Hl. unfold collection. by rewrite Hl. Qed.

(** [isCollection] does not throw: the test of the value itself keeps
    the property read away from [undefined] and [null]. *)
Lemma isCollection_collection h v : isCollection h v = Some (collection h v).
Proof.
  unfold isCollection, constructor, collection, isArray, class_at, is_coll.
  destruct v as [| |[]|n| |s| |l]; simpl; try done.
  - by destruct (negb (n =? 0)%Z).
  - by destruct (negb (s =? "")%string).
  - destruct (h !! l) as [o|]; simpl; [|done]. do 2 f_equal.
    apply bool_decide_ext. split; [by intros [= ->]|by intros ->].
Qed.

(** Line 40: the test of both values, which evaluates its right side only
    when the left one holds. *)
Lemma isCollection_both h current next :
  (isCollection h current ≫= λ c : bool,
     if c then isCollection h next else Some false)
  = Some (collection h current && collection h next).
Proof. rewrite !isCollection_collection. simpl. by destruct (collection h current). Qed.

Lemma isCollection_returns h v b : isCollection h v = Some b ↔ collection h v = b.
Proof. rewrite isCollection_collection. split; [by intros [= ->]|by intros ->]. Qed.

Lemma is_coll_array o : cls o = ClsArray → is_coll o = true.
Proof.
  intros Ho. unfold is_coll. rewrite (bool_decide_true (cls o = ClsArray)) by done.
  apply orb_true_r.
Qed.

Lemma is_coll_plain o :
  cls o = ClsObject → props o !! KName "constructor" = None → is_coll o = true.
Proof. intros Ho Hk. unfold is_coll, constructor_of. by rewrite Hk, Ho. Qed.

Lemma is_coll_index_names o : cls o = ClsObject → index_names o → is_coll o = true.
Proof.
  intros Ho Hidx. apply is_coll_plain; [done|].
  destruct (props o !! KName "constructor") as [v|] eqn:Hk; [|done].
  by destruct (Hidx _ _ Hk).
Qed.

Lemma obj_at_ref h l o : h !! l = Some o → obj_at h (VRef l) = o.
Proof. intros Hl. simpl. by rewrite Hl. Qed.

Lemma obj_at_weaken h h' l o :
  h !! l = Some o → h ⊆ h' → obj_at h' (VRef l) = o.
Proof. intros Hl Hsub. apply obj_at_ref. by eapply lookup_weaken. Qed.

Lemma class_at_weaken h h' v c :
  class_at h v = Some c → h ⊆ h' → class_at h' v = Some c.
Proof.
  intros (l & o & -> & Hl & <-)%class_at_Some Hsub. simpl.
  by rewrite (lookup_weaken _ _ _ _ Hl Hsub).
Qed.

Lemma collection_weaken h h' v :
  collection h v = true → h ⊆ h' → collection h' v = true.
Proof.
  intros (l & o & -> & Hl & Hc)%collection_Some Hsub.
  rewrite (collection_ref h' l o); [done|].
  by eapply lookup_weaken.
Qed.

(** Strict equality: what it says when it holds, and against the marker. *)
Lemma strict_eq_true a b : strict_eq a b = true ↔ a = b ∧ a ≠ VNaN.
Proof.
  unfold strict_eq.
  destruct a; try (rewrite bool_decide_eq_true; split; [by intros <-|by intros [? _]]).
  split; [done|by intros [_ ?]].
Qed.

Lemma strict_eq_omit v : strict_eq v VOmit = bool_decide (v = VOmit).
Proof. unfold strict_eq. by destruct v. Qed.

Lemma strict_eq_refl v : v ≠ VNaN → strict_eq v v = true.
Proof. intros Hv. by apply strict_eq_true. Qed.

Lemma isArray_ref h l o :
  h !! l = Some o → isArray h (VRef l) = bool_decide (cls o = ClsArray).
Proof.
  intros Hl. unfold isArray, class_at. rewrite Hl. simpl.
  apply bool_decide_ext. split; [by intros [= ->]|by intros ->].
Qed.
End store_facts.

(** ** Objects built by the helpers *)

Section object_facts.
Implicit Types (o : obj) (v : val) (k : key).

Lemma elem_of_keys_of o k : k ∈ keys_of o ↔ is_Some (props o !! k).
Proof.
  unfold keys_of. rewrite list_elem_of_fmap. split.
  - intros ([k' v] & -> & Hin). apply elem_of_map_to_list in Hin. eauto.
  - intros [v Hv]. exists (k, v). split; [done|]. by apply elem_of_map_to_list.
Qed.

Lemma NoDup_keys_of o : NoDup (keys_of o).
Proof. apply NoDup_fst_map_to_list. Qed.

Lemma length_keys_of o : length (keys_of o) = size (props o).
Proof. unfold keys_of. by rewrite length_fmap, length_map_to_list. Qed.

Lemma nan_free_get o k :
  nan_free o = true → is_Some (props o !! k) → get_of o k ≠ VNaN.
Proof.
  unfold nan_free. rewrite forallb_forall.
  intros Hall Hk%elem_of_keys_of%list_elem_of_In Hnan.
  apply Hall in Hk. by rewrite bool_decide_true in Hk.
Qed.

Lemma get_of_Some o k v : props o !! k = Some v → get_of o k = v.
Proof. unfold get_of. by intros ->. Qed.

Lemma get_of_None o k : props o !! k = None → get_of o k = VUndefined.
Proof. unfold get_of. by intros ->. Qed.

(** A loop of conditional [acc[key] = f key] assignments. *)
Lemma assignments_lookup (f : key → val) (p : key → bool) ks o k :
  props (foldl (λ acc key, if p key then set_prop key (f key) acc else acc) o ks) !! k
  = if decide (k ∈ ks ∧ p k = true) then Some (f k) else props o !! k.
Proof.
  revert o. induction ks as [|k0 ks IH]; intros o; simpl.
  - done.
  - rewrite IH. destruct (decide (k ∈ ks ∧ p k = true)) as [[Hin Hp]|Hn].
    + rewrite decide_True; [done|]. split; [by right|done].
    + destruct (decide (k = k0)) as [->|Hne].
      * destruct (p k0) eqn:Hp.
        -- rewrite decide_True; [|split; [by left|done]].
          simpl. by rewrite lookup_insert_eq.
        -- rewrite decide_False; [done|]. intros [_ ?]. congruence.
      * rewrite decide_False.
        -- destruct (p k0); [|done]. simpl. by rewrite lookup_insert_ne.
        -- intros [Hin Hp]. apply Hn. split; [|done].
          apply elem_of_cons in Hin as [?|?]; done.
Qed.

Lemma assignments_cls (f : key → val) (p : key → bool) ks o :
  cls (foldl (λ acc key, if p key then set_prop key (f key) acc else acc) o ks) = cls o.
Proof.
  revert o. induction ks as [|k0 ks IH]; intros o; simpl; [done|].
  rewrite IH. by destruct (p k0).
Qed.

Lemma pickBy_of_lookup o predicate k :
  props (pickBy_of o predicate) !! k
  = match props o !! k with
    | Some v => if predicate v k then Some v else None
    | None => None
    end.
Proof.
  unfold pickBy_of.
  rewrite (assignments_lookup (get_of o) (λ key, predicate (get_of o key) key)).
  destruct (props o !! k) as [v|] eqn:E.
  - rewrite (get_of_Some _ _ _ E). destruct (predicate v k) eqn:Hp.
    + rewrite decide_True; [done|]. split; [|done].
      apply elem_of_keys_of. eauto.
    + rewrite decide_False; [done|]. intros [_ ?]. congruence.
  - rewrite decide_False; [done|]. intros [Hin _].
    apply elem_of_keys_of in Hin as [? ?]. congruence.
Qed.

Lemma pickBy_of_cls o predicate : cls (pickBy_of o predicate) = ClsObject.
Proof.
  unfold pickBy_of.
  by rewrite (assignments_cls (get_of o) (λ key, predicate (get_of o key) key)).
Qed.

Lemma assign_of_lookup target source k :
  props (assign_of target source) !! k
  = match props source !! k with
    | Some v => Some v
    | None => props target !! k
    end.
Proof.
  unfold assign_of.
  rewrite (assignments_lookup (get_of source) (λ _, true)).
  destruct (props source !! k) as [v|] eqn:E.
  - rewrite decide_True; [by rewrite (get_of_Some _ _ _ E)|].
    split; [|done]. apply elem_of_keys_of. eauto.
  - rewrite decide_False; [done|]. intros [Hin _].
    apply elem_of_keys_of in Hin as [? ?]. congruence.
Qed.

Lemma assign_of_cls target source : cls (assign_of target source) = cls target.
Proof.
  unfold assign_of. by rewrite (assignments_cls (get_of source) (λ _, true)).
Qed.

Lemma array_of_list_lookup vs k :
  props (array_of_list vs) !! k
  = match k with KIdx i => vs !! i | KName _ => None end.
Proof.
  unfold array_of_list. simpl.
  assert (Hgen : ∀ (ws : list val) (n : nat),
    (list_to_map (imap (λ i v, (KIdx (n + i), v)) ws) : gmap key val) !! k
    = match k with
    | KIdx i => if decide (n ≤ i) then ws !! (i - n) else None
    | KName _ => None
    end).
  { induction ws as [|w ws IH]; intros n; simpl.
    - rewrite lookup_empty. destruct k; [by case_decide|done].
    - destruct (decide (k = KIdx (n + 0))) as [->|Hne].
      + rewrite lookup_insert_eq. cbn beta iota. rewrite decide_True by lia.
        by replace (n + 0 - n) with 0 by lia.
      + rewrite lookup_insert_ne by done.
        rewrite (imap_ext _ (λ i v, (KIdx (S n + i), v))); last first.
        { intros i x _. simpl. do 2 f_equal. lia. }
        rewrite IH. destruct k as [i|s]; [|done].
        assert (i ≠ n) by (intros ->; apply Hne; f_equal; lia).
        destruct (decide (S n ≤ i)), (decide (n ≤ i)); try lia; [|done].
        by replace (i - n) with (S (i - S n)) by lia. }
  specialize (Hgen vs 0). simpl in Hgen. rewrite Hgen.
  destruct k as [i|s]; [|done]. by replace (i - 0) with i by lia.
Qed.

Lemma truncate_lookup o bound k :
  props (truncate o bound) !! k = if below bound k then props o !! k else None.
Proof.
  unfold truncate. simpl. destruct (below bound k) eqn:Hb.
  - destruct (props o !! k) as [v|] eqn:E.
    + apply map_lookup_filter_Some. done.
    + apply map_lookup_filter_None. left. done.
  - apply map_lookup_filter_None. right. intros v _. simpl. congruence.
Qed.
End object_facts.

(** ** One reducer step on two collections *)

Section reducer_step.
Variable recur : val → val → M val.
Hypothesis recur_frame :
  ∀ c v hi r hj, recur c v hi = Some (r, hj) → hi ⊆ hj.

Lemma chain_frame (f : key → M val) ks h h' rs :
  (∀ k hi r hj, f k hi = Some (r, hj) → hi ⊆ hj) →
  chain f ks h h' rs → h ⊆ h'.
Proof.
  intros Hf. revert h rs.
  induction ks as [|k ks IH]; intros h [|[k' r] rs]; simpl; try done.
  - by intros ->.
  - intros (-> & hm & Hk & Hrest). etrans; [by eapply Hf|by eapply IH].
Qed.

(** The loop of [mapValues] over [filteredNext], seen as a chain of
    recursive merges. *)
Lemma mapValues_loop h lc oc l2 fn ks acc h0 accf hf :
  h !! lc = Some oc → h ⊆ h0 → h0 !! l2 = Some fn →
  reduceM
    (λ acc key h1,
       '(v, h2) ← (λ value key h', recur (get h' (VRef lc) key) value h')
                    (get h1 (VRef l2) key) key h1;
       Some (set_prop key v acc, h2))
    ks acc h0 = Some (accf, hf) →
  ∃ rs,
    chain (λ k, recur (get_of oc k) (get_of fn k)) ks h0 hf rs
    ∧ accf = foldl (λ acc kv, set_prop kv.1 kv.2 acc) acc rs.
Proof.
  intros Hlc. revert acc h0.
  induction ks as [|k ks IH]; intros acc h0 Hsub Hl2; simpl.
  - intros [= <- <-]. by exists [].
  - assert (Hg2 : get h0 (VRef l2) k = get_of fn k).
    { unfold get. by rewrite (obj_at_ref _ _ _ Hl2). }
    assert (Hgc : get h0 (VRef lc) k = get_of oc k).
    { unfold get. by rewrite (obj_at_weaken _ _ _ _ Hlc Hsub). }
    rewrite Hg2, Hgc.
    destruct (recur (get_of oc k) (get_of fn k) h0) as [[v h2]|] eqn:Hk;
      simpl; [|discriminate].
    intros Hrest. pose proof (recur_frame _ _ _ _ _ Hk) as Hsub2.
    apply IH in Hrest as (rs & Hchain & ->).
    + exists ((k, v) :: rs). simpl. split; [|done]. split; [done|]. eauto.
    + by etrans.
    + by eapply lookup_weaken.
Qed.

Lemma reducer_scalar cur next h :
  collection h cur && collection h next = false →
  reducer recur cur next h = Some (next, h).
Proof. intros Hcoll. unfold reducer. by rewrite isCollection_both, Hcoll. Qed.

(** Lines 41-49: the store and the two filtered objects just before
    [mapValues] runs. *)
Lemma reducer_prefix cur next h :
  collection h cur = true → collection h next = true →
  ∃ lm l2 h3,
    let oc := obj_at h cur in
    let on := obj_at h next in
    h ⊆ h3 ∧ h !! lm = None
    ∧ h3 !! lm = Some (filteredCurrent_of oc on)
    ∧ h3 !! l2 = Some (filteredNext_of on)
    ∧ reducer recur cur next h
      = ('(mapped, h4) ← mapValues (VRef l2)
            (λ value key h', recur (get h' cur key) value h') h3;
         let '(merged, h5) := Object_assign (VRef lm) mapped h4 in
         Some (if shallowEqual h5 cur merged then cur else merged, h5)).
Proof.
  intros Hc Hn.
  destruct (collection_Some _ _ Hc) as (lc & oc & -> & Hlc & Hcc).
  destruct (collection_Some _ _ Hn) as (ln & on & -> & Hln & Hcn).
  unfold reducer. rewrite isCollection_both, Hc, Hn. simpl andb.
  cbn [mbind option_bind]. cbv iota.
  unfold alloc at 1. cbv zeta beta iota.
  set (l1 := fresh (dom h)).
  set (fc0 := filter h (VRef lc) _).
  set (h1 := <[l1 := fc0]> h).
  unfold alloc at 1. cbv zeta beta iota.
  set (l2 := fresh (dom h1)).
  set (fn := pickBy h1 (VRef ln) _).
  set (h2 := <[l2 := fn]> h1).
  assert (Hh1 : h ⊆ h1) by apply alloc_subseteq.
  assert (Hh2 : h1 ⊆ h2) by apply alloc_subseteq.
  assert (Hl1 : h1 !! l1 = Some fc0) by apply lookup_insert_eq.
  assert (Hl2 : h2 !! l2 = Some fn) by apply lookup_insert_eq.
  assert (Hfn : fn = filteredNext_of on).
  { unfold fn, pickBy. by rewrite (obj_at_weaken _ _ _ _ Hln Hh1). }
  assert (Hfc0 : fc0 = filter_of oc (λ _ key, negb (strict_eq (get_of on key) VOmit))).
  { unfold fc0, filter, get. by rewrite (obj_at_ref _ _ _ Hlc), (obj_at_ref _ _ _ Hln). }
  assert (Harr : isArray h2 (VRef lc) && isArray h2 (VRef ln)
    = bool_decide (cls oc = ClsArray) && bool_decide (cls on = ClsArray)).
  { rewrite (isArray_ref h2 lc oc), (isArray_ref h2 ln on); [done| |];
    eapply lookup_weaken; [done|by etrans|done|by etrans]. }
  rewrite Harr.
  assert (∃ lm h3,
    (if bool_decide (cls oc = ClsArray) && bool_decide (cls on = ClsArray)
    then alloc (slice h2 (VRef l1) (Math_max (Number <$> keys h2 (VRef l2)))) h2
    else (VRef l1, h2)) = (VRef lm, h3)
    ∧ h ⊆ h3 ∧ h !! lm = None ∧ h3 !! lm = Some (filteredCurrent_of oc on)
    ∧ h3 !! l2 = Some fn) as (lm & h3 & -> & Hh3 & Hlm & Hlm3 & Hl23).
  { unfold filteredCurrent_of. rewrite <- Hfc0, <- Hfn.
    destruct (bool_decide (cls oc = ClsArray) && bool_decide (cls on = ClsArray)).
    - exists (fresh (dom h2)), (<[fresh (dom h2) := truncate fc0
      (slice_bound (Math_max (Number <$> keys_of fn)) (alen fc0))]> h2).
      pose proof (alloc_subseteq
        (truncate fc0 (slice_bound (Math_max (Number <$> keys_of fn)) (alen fc0))) h2)
        as Hh3.
      split_and!.
      + unfold alloc, slice, keys.
        by rewrite (obj_at_weaken _ _ _ _ Hl1 Hh2), (obj_at_ref _ _ _ Hl2).
      + by do 2 (etrans; [eassumption|]).
      + eapply lookup_weaken_None; [apply (fresh_None h2)|]. by etrans.
      + apply lookup_insert_eq.
      + by eapply lookup_weaken.
    - exists l1, h2. split_and!; [done|by etrans|apply fresh_None| |done].
      by eapply lookup_weaken. }
  exists lm, l2, h3. cbv zeta.
  rewrite (obj_at_ref _ _ _ Hlc), (obj_at_ref _ _ _ Hln), <- Hfn.
  by split_and!.
Qed.

(** If every recursive call returns, so does the loop of [mapValues]. *)
Lemma mapValues_loop_total h lc oc l2 fn ks acc h0 :
  h !! lc = Some oc → h ⊆ h0 → h0 !! l2 = Some fn →
  (∀ k hi, k ∈ ks → h ⊆ hi →
     is_Some (recur (get_of oc k) (get_of fn k) hi)) →
  is_Some (reduceM
    (λ acc key h1,
       '(v, h2) ← (λ value key h', recur (get h' (VRef lc) key) value h')
                    (get h1 (VRef l2) key) key h1;
       Some (set_prop key v acc, h2))
    ks acc h0).
Proof.
  intros Hlc. revert acc h0.
  induction ks as [|k ks IH]; intros acc h0 Hsub Hl2 Hall; simpl; [done|].
  assert (Hg2 : get h0 (VRef l2) k = get_of fn k).
  { unfold get. by rewrite (obj_at_ref _ _ _ Hl2). }
  assert (Hgc : get h0 (VRef lc) k = get_of oc k).
  { unfold get. by rewrite (obj_at_weaken _ _ _ _ Hlc Hsub). }
  rewrite Hg2, Hgc.
  destruct (Hall k h0) as [[v h2] Hk]; [by left|done|]. rewrite Hk. simpl.
  pose proof (recur_frame _ _ _ _ _ Hk) as Hsub2.
  apply IH; [by etrans|by eapply lookup_weaken|].
  intros k' hi Hk' Hhi. apply Hall; [by right|done].
Qed.

Lemma reducer_total cur next h :
  (collection h cur = true → collection h next = true →
   ∀ k hi, is_Some (props (filteredNext_of (obj_at h next)) !! k) → h ⊆ hi →
     is_Some (recur (get h cur k) (get_of (filteredNext_of (obj_at h next)) k) hi)) →
  is_Some (reducer recur cur next h).
Proof.
  intros Hall.
  destruct (collection h cur && collection h next) eqn:Hcoll.
  2:{ by rewrite reducer_scalar. }
  apply andb_prop in Hcoll as [Hc Hn]. specialize (Hall Hc Hn).
  destruct (reducer_prefix _ _ _ Hc Hn)
    as (lm & l2 & h3 & H3 & Hlm & Hlm3 & Hl23 & ->).
  destruct (collection_Some _ _ Hc) as (lc & oc & -> & Hlc & _).
  destruct (collection_Some _ _ Hn) as (ln & on & -> & Hln & _).
  unfold get in Hall. rewrite (obj_at_ref _ _ _ Hlc), (obj_at_ref _ _ _ Hln) in *.
  unfold mapValues. unfold keys at 1. rewrite (obj_at_ref _ _ _ Hl23).
  destruct (mapValues_loop_total h lc oc l2 (filteredNext_of on)
    (keys_of (filteredNext_of on)) empty_object h3)
    as [[acc h4] Hloop]; [done..| |].
  { intros k hi Hk%elem_of_keys_of Hhi. by apply Hall. }
  rewrite Hloop. simpl.
  by destruct (<[fresh (dom h4):=acc]> h4 !! lm).
Qed.

Lemma reducer_collections cur next h r h' :
  collection h cur = true → collection h next = true →
  reducer recur cur next h = Some (r, h') →
  ∃ lm l4 rs h3 h4,
    let oc := obj_at h cur in
    let on := obj_at h next in
    let fc := filteredCurrent_of oc on in
    let merged := assign_of fc (mapped_of rs) in
    h ⊆ h3 ∧ h !! lm = None ∧ h3 !! lm = Some fc
    ∧ chain (λ k, recur (get_of oc k) (get_of (filteredNext_of on) k))
            (keys_of (filteredNext_of on)) h3 h4 rs
    ∧ h4 !! l4 = None
    ∧ h' = <[lm := merged]> (<[l4 := mapped_of rs]> h4)
    ∧ r = (if shallowEqual_of oc merged then cur else VRef lm).
Proof.
  intros Hc Hn.
  destruct (reducer_prefix _ _ _ Hc Hn)
    as (lm & l2 & h3 & Hh3 & Hlm & Hlm3 & Hl23 & ->).
  destruct (collection_Some _ _ Hc) as (lc & oc & -> & Hlc & Hcc).
  destruct (collection_Some _ _ Hn) as (ln & on & -> & Hln & Hcn).
  rewrite (obj_at_ref _ _ _ Hlc), (obj_at_ref _ _ _ Hln) in *.
  set (fn := filteredNext_of on) in *.
  unfold mapValues. unfold keys at 1. rewrite (obj_at_ref _ _ _ Hl23).
  destruct (reduceM _ (keys_of fn) empty_object h3) as [[acc h4]|] eqn:Hloop;
    simpl; [|discriminate].
  apply (mapValues_loop h lc oc l2 fn) in Hloop as (rs & Hchain & ->);
    [|done..].
  assert (Hh4 : h3 ⊆ h4).
  { eapply chain_frame; [|exact Hchain]. intros ????. apply recur_frame. }
  fold (mapped_of rs).
  set (l4 := fresh (dom h4)).
  assert (Hlm4 : <[l4 := mapped_of rs]> h4 !! lm = Some (filteredCurrent_of oc on)).
  { eapply lookup_weaken; [exact Hlm3|]. etrans; [exact Hh4|apply alloc_subseteq]. }
  rewrite Hlm4, lookup_insert_eq. simpl default.
  intros [= <- <-].
  exists lm, l4, rs, h3, h4. cbv zeta.
  split_and!; try done.
  - apply fresh_None.
  - unfold shallowEqual.
    rewrite (obj_at_ref _ lm (assign_of (filteredCurrent_of oc on) (mapped_of rs)))
      by apply lookup_insert_eq.
    assert (lc ≠ lm) by (intros ->; congruence).
    assert (Hlc' : <[lm:=assign_of (filteredCurrent_of oc on) (mapped_of rs)]>
      (<[l4:=mapped_of rs]> h4) !! lc = Some oc).
    { rewrite lookup_insert_ne by done.
      eapply lookup_weaken; [exact Hlc|].
      etrans; [exact Hh3|]. etrans; [exact Hh4|apply alloc_subseteq]. }
    by rewrite (obj_at_ref _ _ _ Hlc').
Qed.
End reducer_step.

(** ** Unfolding the variadic entry point *)

Lemma deepMergeChanges_unfold fuel current changes :
  deepMergeChanges fuel current changes
  = reduceM (reducer (nested fuel)) changes current.
Proof. by destruct fuel. Qed.

Lemma reduceM_single {A B : Type} (f : A → B → M A) b a h :
  reduceM f [b] a h = f a b h.
Proof. simpl. by destruct (f a b h) as [[? ?]|]. Qed.

Lemma deepMergeChanges_single fuel current next h :
  deepMergeChanges fuel current [next] h = reducer (nested fuel) current next h.
Proof. by rewrite deepMergeChanges_unfold, reduceM_single. Qed.

Lemma reduceM_app {A B : Type} (f : A → B → M A) l1 l2 a h :
  reduceM f (l1 ++ l2) a h
  = '(a', h') ← reduceM f l1 a h; reduceM f l2 a' h'.
Proof.
  revert a h. induction l1 as [|b l1 IH]; intros a h; simpl; [done|].
  destruct (f a b h) as [[a1 h1]|]; simpl; [apply IH|done].
Qed.

(** ** Frame: the store only grows *)

Lemma reducer_frame recur current next h r h' :
  (∀ c v hi rr hj, recur c v hi = Some (rr, hj) → hi ⊆ hj) →
  reducer recur current next h = Some (r, h') → h ⊆ h'.
Proof.
  intros Hrec Hrun.
  destruct (collection h current && collection h next) eqn:Hcoll.
  - apply andb_prop in Hcoll as [Hc Hn].
    destruct (reducer_collections recur Hrec _ _ _ _ _ Hc Hn Hrun)
      as (lm & l4 & rs & h3 & h4 & H3 & Hlm & _ & Hchain & Hl4 & -> & _).
    apply insert_subseteq_r; [done|].
    etrans; [exact H3|]. etrans; [|by apply insert_subseteq].
    eapply chain_frame; [|exact Hchain]. intros ????. apply Hrec.
  - rewrite reducer_scalar in Hrun by done. by injection Hrun as _ ->.
Qed.

Lemma reduceM_frame {A : Type} (f : A → val → M A) vs a h a' h' :
  (∀ a v hi b hj, f a v hi = Some (b, hj) → hi ⊆ hj) →
  reduceM f vs a h = Some (a', h') → h ⊆ h'.
Proof.
  intros Hf. revert a h. induction vs as [|v vs IH]; intros a h; simpl.
  - by intros [= _ ->].
  - destruct (f a v h) as [[a1 h1]|] eqn:E; simpl; [|done].
    intros Hrest. etrans; [by eapply Hf|by eapply IH].
Qed.

Lemma deepMergeChanges_frame fuel current changes h r h' :
  deepMergeChanges fuel current changes h = Some (r, h') → h ⊆ h'.
Proof.
  revert current changes h r h'.
  induction fuel as [|n IH]; intros current changes h r h';
    rewrite deepMergeChanges_unfold; intros Hrun.
  - eapply reduceM_frame; [|exact Hrun]. intros ?????.
    apply reducer_frame. by intros ?????.
  - eapply reduceM_frame; [|exact Hrun]. intros ?????.
    apply reducer_frame. intros ?????. apply IH.
Qed.

Lemma nested_frame fuel c v hi r hj : nested fuel c v hi = Some (r, hj) → hi ⊆ hj.
Proof. destruct fuel; [done|]. apply deepMergeChanges_frame. Qed.

(** ** Where the values of the built objects come from *)

Section origins.
Implicit Types (o : obj) (v : val) (k : key).

Lemma filteredNext_of_lookup on k v :
  props (filteredNext_of on) !! k = Some v ↔ props on !! k = Some v ∧ v ≠ VOmit.
Proof.
  unfold filteredNext_of. rewrite pickBy_of_lookup.
  destruct (props on !! k) as [w|]; [rewrite strict_eq_omit; case_bool_decide; simpl|];
    (split; [intros ?; by simplify_eq|intros [? ?]; by simplify_eq]).
Qed.

Lemma filteredNext_of_None on k :
  props (filteredNext_of on) !! k = None
  ↔ props on !! k = None ∨ props on !! k = Some VOmit.
Proof.
  unfold filteredNext_of. rewrite pickBy_of_lookup.
  destruct (props on !! k) as [w|]; [rewrite strict_eq_omit; case_bool_decide; simpl|];
    (split; [intros ?; simplify_eq; auto|intros [?|?]; by simplify_eq]).
Qed.

Lemma Array_filter_lookup_Some o predicate k v :
  props (Array_filter o predicate) !! k = Some v →
  ∃ i, props o !! KIdx i = Some v ∧ predicate v (KIdx i) = true.
Proof.
  unfold Array_filter. rewrite array_of_list_lookup.
  destruct k as [j|]; [|done]. intros Hj.
  apply list_elem_of_lookup_2, list_elem_of_omap in Hj as (i & _ & Hi).
  exists i. destruct (props o !! KIdx i) as [w|]; [|done].
  destruct (predicate w (KIdx i)) eqn:Hp; [|done]. by injection Hi as ->.
Qed.

Lemma filter_of_value o predicate k v :
  props (filter_of o predicate) !! k = Some v → ∃ k', props o !! k' = Some v.
Proof.
  unfold filter_of. intros H.
  assert (props (pickBy_of o predicate) !! k = Some v → ∃ k', props o !! k' = Some v).
  { rewrite pickBy_of_lookup. destruct (props o !! k) as [w|] eqn:E; [|done].
    destruct (predicate w k); [|done]. intros [= ->]. eauto. }
  destruct (cls o); auto.
  apply Array_filter_lookup_Some in H as (i & Hi & _). eauto.
Qed.

Lemma filteredCurrent_of_value oc on k v :
  props (filteredCurrent_of oc on) !! k = Some v → ∃ k', props oc !! k' = Some v.
Proof.
  unfold filteredCurrent_of.
  destruct (bool_decide (cls oc = ClsArray) && bool_decide (cls on = ClsArray)).
  - rewrite truncate_lookup. destruct (below _ k); [|done]. apply filter_of_value.
  - apply filter_of_value.
Qed.

Lemma assignments_snoc (o : obj) (rs : list (key * val)) k v :
  foldl (λ acc kv, set_prop kv.1 kv.2 acc) o (rs ++ [(k, v)])
  = set_prop k v (foldl (λ acc kv, set_prop kv.1 kv.2 acc) o rs).
Proof. by rewrite foldl_app. Qed.

Lemma mapped_of_lookup_Some rs k v :
  props (mapped_of rs) !! k = Some v → (k, v) ∈ rs.
Proof.
  unfold mapped_of. induction rs as [|[k0 v0] rs IH] using rev_ind; simpl.
  - by rewrite lookup_empty.
  - rewrite assignments_snoc. simpl. rewrite elem_of_app, list_elem_of_singleton.
    destruct (decide (k0 = k)) as [->|Hne].
    + rewrite lookup_insert_eq. intros [= ->]. by right.
    + rewrite lookup_insert_ne by done. auto.
Qed.

Lemma mapped_of_lookup rs k v :
  NoDup rs.*1 → (k, v) ∈ rs → props (mapped_of rs) !! k = Some v.
Proof.
  unfold mapped_of. induction rs as [|[k0 v0] rs IH] using rev_ind; simpl.
  - intros _ H. by apply elem_of_nil in H.
  - rewrite fmap_app, assignments_snoc. simpl.
    intros [Hnd [Hdisj _]]%NoDup_app. rewrite elem_of_app, list_elem_of_singleton.
    intros [Hin|[= -> ->]].
    + rewrite lookup_insert_ne; [by apply IH|]. intros <-.
      apply (Hdisj k0); [|by left]. apply list_elem_of_fmap. by exists (k0, v).
    + by rewrite lookup_insert_eq.
Qed.

Lemma mapped_of_cls rs : cls (mapped_of rs) = ClsObject.
Proof.
  unfold mapped_of. induction rs as [|[k0 v0] rs IH] using rev_ind; [done|].
  by rewrite assignments_snoc.
Qed.

Lemma chain_keys f ks h h' rs : chain f ks h h' rs → rs.*1 = ks.
Proof.
  revert h rs. induction ks as [|k ks IH]; intros h [|[k' r] rs]; simpl; try done.
  intros (-> & hm & _ & Hrest). f_equal. by eapply IH.
Qed.

Lemma chain_lookup f ks h h' rs k r :
  (∀ k hi r hj, f k hi = Some (r, hj) → hi ⊆ hj) →
  chain f ks h h' rs → (k, r) ∈ rs →
  ∃ hi hj, h ⊆ hi ∧ hj ⊆ h' ∧ f k hi = Some (r, hj).
Proof.
  intros Hf. revert h rs.
  induction ks as [|k0 ks IH]; intros h [|[k' r'] rs]; simpl; try done.
  - intros _ H. by apply elem_of_nil in H.
  - intros (-> & hm & Hk & Hrest) [[= -> ->]|Hin]%elem_of_cons.
    + exists h, hm. split_and!; [done| |done].
      eapply chain_frame; [exact Hf|exact Hrest].
    + destruct (IH _ _ Hrest Hin) as (hi & hj & ? & ? & ?).
      exists hi, hj. split_and!; [|done..]. etrans; [by eapply Hf|done].
Qed.

Lemma mapped_lookup_chain f ks h h' rs k :
  NoDup ks → chain f ks h h' rs →
  props (mapped_of rs) !! k = None ↔ k ∉ ks.
Proof.
  intros Hnd Hchain. pose proof (chain_keys _ _ _ _ _ Hchain) as <-. split.
  - intros Hnone [[k' v] [-> Hin]]%list_elem_of_fmap. simpl in Hnone.
    by rewrite (mapped_of_lookup _ _ _ Hnd Hin) in Hnone.
  - intros Hnot. destruct (props (mapped_of rs) !! k) as [v|] eqn:E; [|done].
    exfalso. apply Hnot, list_elem_of_fmap. exists (k, v).
    split; [done|]. by apply mapped_of_lookup_Some.
Qed.
End origins.

(** ** Closed stores stay closed; temporaries stay private *)

Section footprint.
Implicit Types (g h : heap) (o : obj) (v : val) (k : key) (l : loc).

Lemma closed_lookup g l o k v :
  closed g → g !! l = Some o → props o !! k = Some v → val_in g v.
Proof. intros Hg Hl Hk. exact (Hg l o Hl k v Hk). Qed.

Lemma val_in_weaken g g' v : val_in g v → g ⊆ g' → val_in g' v.
Proof.
  destruct v; simpl; try done. intros [o Ho] Hsub. exists o.
  by eapply lookup_weaken.
Qed.

Lemma val_in_get_of g l o k :
  closed g → g !! l = Some o → val_in g (get_of o k).
Proof.
  intros Hg Hl. unfold get_of. destruct (props o !! k) as [v|] eqn:E; [|done].
  by eapply closed_lookup.
Qed.

Lemma val_in_obj g h v l o :
  g ⊆ h → val_in g v → v = VRef l → h !! l = Some o → g !! l = Some o.
Proof.
  intros Hsub Hv -> Hl. destruct Hv as [o' Ho'].
  by rewrite <- Hl, (lookup_weaken _ _ _ _ Ho' Hsub).
Qed.

Lemma closed_insert g l o :
  closed g → (∀ k v, props o !! k = Some v → val_in (<[l := o]> g) v) →
  closed (<[l := o]> g).
Proof.
  intros Hg Ho l' o' Hl' k v Hk.
  destruct (decide (l = l')) as [->|Hne].
  - rewrite lookup_insert_eq in Hl'. injection Hl' as <-. by apply (Ho k).
  - rewrite lookup_insert_ne in Hl' by done.
    pose proof (closed_lookup _ _ _ _ _ Hg Hl' Hk) as Hv.
    destruct v; simpl in *; try done.
    destruct (decide (l = l0)) as [->|?];
      [by rewrite lookup_insert_eq|by rewrite lookup_insert_ne].
Qed.

Lemma extends_refl g h h' r :
  g ⊆ h → h ⊆ h' → closed g → val_in g r → extends g h g h' r.
Proof. intros ????. split_and!; try done. by etrans. Qed.

Lemma extends_trans g h g1 h1 r1 g2 h2 r2 :
  h ⊆ h1 → extends g h g1 h1 r1 → extends g1 h1 g2 h2 r2 → extends g h g2 h2 r2.
Proof.
  intros Hh (? & ? & ? & ? & Hnew1) (? & ? & ? & ? & Hnew2).
  split_and!; try done; [by etrans|].
  intros l Hl2 [o Hl]. apply Hnew1; [|by exists o].
  apply Hnew2; [done|]. exists o. by eapply lookup_weaken.
Qed.

Section step.
Variable recur : val → val → M val.
Hypothesis recur_frame :
  ∀ c v hi r hj, recur c v hi = Some (r, hj) → hi ⊆ hj.
Hypothesis recur_footprint :
  ∀ c v hi r hj g, recur c v hi = Some (r, hj) →
    g ⊆ hi → closed g → val_in g c → val_in g v →
    ∃ g', extends g hi g' hj r.

Lemma chain_footprint (a b : key → val) ks h h' rs g :
  chain (λ k, recur (a k) (b k)) ks h h' rs →
  g ⊆ h → closed g → (∀ k, val_in g (a k) ∧ val_in g (b k)) →
  ∃ g', extends g h g' h' VUndefined ∧ ∀ k r, (k, r) ∈ rs → val_in g' r.
Proof.
  revert h rs g.
  induction ks as [|k ks IH]; intros h [|[k' r] rs] g; simpl; try done.
  - intros -> Hsub Hg _. exists g. split; [by apply extends_refl|].
    intros ?? H. by apply elem_of_nil in H.
  - intros (-> & hm & Hk & Hrest) Hsub Hg Hab.
    destruct (recur_footprint _ _ _ _ _ g Hk Hsub Hg) as (g1 & Hext1);
      [apply Hab..|].
    pose proof Hext1 as (Hg1 & Hg1h & Hc1 & Hr1 & _).
    destruct (IH _ _ g1 Hrest Hg1h Hc1) as (g2 & Hext2 & Hrs).
    { intros k'. split; eapply val_in_weaken; try apply Hab; done. }
    exists g2. split.
    + eapply extends_trans; [by eapply recur_frame|exact Hext1|exact Hext2].
    + intros k' r' [[= -> ->]|Hin]%elem_of_cons; [|by eapply Hrs].
      eapply val_in_weaken; [exact Hr1|apply Hext2].
Qed.

Lemma reducer_footprint current next h r h' g :
  reducer recur current next h = Some (r, h') →
  g ⊆ h → closed g → val_in g current → val_in g next →
  ∃ g', extends g h g' h' r.
Proof.
  intros Hrun Hsub Hg Hcur Hnext.
  pose proof (reducer_frame _ _ _ _ _ _ recur_frame Hrun) as Hframe.
  destruct (collection h current && collection h next) eqn:Hcoll.
  2:{ rewrite reducer_scalar in Hrun by done. injection Hrun as <- <-.
    exists g. by apply extends_refl. }
  apply andb_prop in Hcoll as [Hc Hn].
  destruct (reducer_collections recur recur_frame _ _ _ _ _ Hc Hn Hrun)
    as (lm & l4 & rs & h3 & h4 & H3 & Hlm & Hlm3 & Hchain & Hl4 & Hh' & Hr).
  destruct (collection_Some _ _ Hc) as (lc & oc & -> & Hlc & _).
  destruct (collection_Some _ _ Hn) as (ln & on & -> & Hln & _).
  rewrite (obj_at_ref _ _ _ Hlc), (obj_at_ref _ _ _ Hln) in *.
  pose proof (val_in_obj _ _ _ _ _ Hsub Hcur eq_refl Hlc) as Hgc.
  pose proof (val_in_obj _ _ _ _ _ Hsub Hnext eq_refl Hln) as Hgn.
  destruct (shallowEqual_of oc _).
  { subst r. exists g. by apply extends_refl. }
  destruct (chain_footprint _ _ _ _ _ _ g Hchain) as (G & HG & Hrs);
    [by etrans|done| |].
  { intros k. split; [by eapply val_in_get_of|].
    unfold get_of.
    destruct (props (filteredNext_of on) !! k) as [v|] eqn:E; [|done].
    apply filteredNext_of_lookup in E as [E _].
    exact (closed_lookup g ln on k v Hg Hgn E). }
  destruct HG as (HgG & HGh4 & HGc & _ & Hnew).
  set (merged := assign_of (filteredCurrent_of oc on) (mapped_of rs)) in *.
  assert (HGlm : G !! lm = None).
  { destruct (G !! lm) eqn:E; [|done].
    destruct (Hnew lm) as [o' Ho']; [done|by rewrite Hlm3|].
    by rewrite (lookup_weaken _ _ _ _ Ho' Hsub) in Hlm. }
  subst r h'. exists (<[lm := merged]> G). split_and!.
  - etrans; [exact HgG|]. by apply insert_subseteq.
  - apply insert_mono. etrans; [exact HGh4|]. by apply insert_subseteq.
  - apply closed_insert; [done|]. intros k v. unfold merged.
    rewrite assign_of_lookup.
    destruct (props (mapped_of rs) !! k) as [w|] eqn:E.
    + intros [= ->]. apply mapped_of_lookup_Some in E.
      eapply val_in_weaken; [by eapply Hrs|by apply insert_subseteq].
    + intros (k' & Hk')%filteredCurrent_of_value.
      eapply val_in_weaken; [exact (closed_lookup g lc oc k' v Hg Hgc Hk')|].
      etrans; [exact HgG|]. by apply insert_subseteq.
  - simpl. by rewrite lookup_insert_eq.
  - intros l Hl [o Ho]. destruct (decide (lm = l)) as [->|Hne].
    + congruence.
    + rewrite lookup_insert_ne in Hl by done. apply Hnew; [done|].
      exists o. by eapply lookup_weaken.
Qed.
End step.

Lemma reduceM_footprint (f : val → val → M val) vs c h r h' g :
  (∀ c v hi r hj, f c v hi = Some (r, hj) → hi ⊆ hj) →
  (∀ c v hi r hj g, f c v hi = Some (r, hj) →
     g ⊆ hi → closed g → val_in g c → val_in g v → ∃ g', extends g hi g' hj r) →
  reduceM f vs c h = Some (r, h') →
  g ⊆ h → closed g → val_in g c → Forall (val_in g) vs →
  ∃ g', extends g h g' h' r.
Proof.
  intros Hframe Hfoot. revert c h g.
  induction vs as [|v vs IH]; intros c h g; simpl.
  - intros [= <- <-] ????. exists g. by apply extends_refl.
  - destruct (f c v h) as [[c1 h1]|] eqn:E; simpl; [|done].
    intros Hrest Hsub Hg Hc [Hv Hvs]%Forall_cons.
    destruct (Hfoot _ _ _ _ _ g E) as (g1 & Hext1); [done..|].
    pose proof Hext1 as (Hg1 & Hg1h & Hc1 & Hr1 & _).
    destruct (IH _ _ g1 Hrest) as (g2 & Hext2); [done..| |].
    { eapply Forall_impl; [exact Hvs|]. intros ??. by eapply val_in_weaken. }
    exists g2. eapply extends_trans; [by eapply Hframe|done..].
Qed.

Lemma deepMergeChanges_footprint fuel current changes h r h' g :
  deepMergeChanges fuel current changes h = Some (r, h') →
  g ⊆ h → closed g → val_in g current → Forall (val_in g) changes →
  ∃ g', extends g h g' h' r.
Proof.
  revert current changes h r h' g.
  induction fuel as [|n IH]; intros current changes h r h' g;
    rewrite deepMergeChanges_unfold; intros Hrun ????.
  - eapply reduceM_footprint; [| |exact Hrun|done..].
    + intros ?????. apply reducer_frame. by intros ?????.
    + intros ??????. apply reducer_footprint; by intros ??????.
  - eapply reduceM_footprint; [| |exact Hrun|done..].
    + intros ?????. apply reducer_frame. intros ?????. apply nested_frame.
    + intros ??????. apply reducer_footprint.
      * intros ?????. apply nested_frame.
      * intros ?????? Hn ????. simpl in Hn. eapply IH; [exact Hn|by auto..].
Qed.

Lemma nested_footprint fuel c v hi r hj g :
  nested fuel c v hi = Some (r, hj) →
  g ⊆ hi → closed g → val_in g c → val_in g v → ∃ g', extends g hi g' hj r.
Proof.
  destruct fuel; [done|]. simpl. intros. eapply deepMergeChanges_footprint; eauto.
Qed.
End footprint.

(** ** Reading through a closed part of the store *)

Section live_reads.
Implicit Types (g h : heap) (o : obj) (v : val) (k : key) (l : loc).

Lemma collection_is_coll h l o :
  h !! l = Some o → collection h (VRef l) = is_coll o.
Proof. apply collection_ref. Qed.

Lemma lookup_path_weaken g h v p v' :
  lookup_path g v p = Some v' → g ⊆ h → lookup_path h v p = Some v'.
Proof.
  intros Hp Hsub. revert v Hp. induction p as [|k p IH]; intros v; simpl; [done|].
  destruct v; try done.
  destruct (g !! l) as [o|] eqn:Hl; simpl; [|done].
  rewrite (lookup_weaken _ _ _ _ Hl Hsub). simpl.
  destruct (is_coll o); [|done].
  destruct (props o !! k) as [w|]; simpl; [apply IH|done].
Qed.

Lemma lookup_path_live g h v p :
  closed g → val_in g v → g ⊆ h → lookup_path h v p = lookup_path g v p.
Proof.
  intros Hg Hv Hsub. revert v Hv. induction p as [|k p IH]; intros v Hv; simpl; [done|].
  destruct v; try done. destruct Hv as [o Hl].
  rewrite Hl, (lookup_weaken _ _ _ _ Hl Hsub). simpl.
  destruct (is_coll o); [|done].
  destruct (props o !! k) as [w|] eqn:Hk; simpl; [|done].
  apply IH. by eapply closed_lookup.
Qed.

Lemma lookup_path_val_in g v p v' :
  closed g → val_in g v → lookup_path g v p = Some v' → val_in g v'.
Proof.
  intros Hg. revert v. induction p as [|k p IH]; intros v Hv; simpl.
  - by intros [= <-].
  - destruct v; try done. destruct Hv as [o Hl]. rewrite Hl. simpl.
    destruct (is_coll o); [|done].
    destruct (props o !! k) as [w|] eqn:Hk; simpl; [|done].
    apply IH. by eapply closed_lookup.
Qed.

Lemma deepEqual_live_l n g h v h2 v2 :
  closed g → val_in g v → g ⊆ h →
  deepEqual n h v h2 v2 = deepEqual n g v h2 v2.
Proof.
  intros Hg Hv Hsub. revert v v2 Hv.
  induction n as [|n IH]; intros v v2 Hv;
    destruct v as [| | | | | | |l1]; try done;
    destruct v2 as [| | | | | | |l2]; try done;
    destruct Hv as [o1 Hl1]; simpl;
    rewrite Hl1, (lookup_weaken _ _ _ _ Hl1 Hsub); [done|].
  destruct (h2 !! l2) as [o2|]; [|done].
  destruct (is_coll o1 && is_coll o2); [|done].
  f_equal. apply eq_true_iff_eq. rewrite !forallb_forall.
  split; intros H k Hk; specialize (H k Hk);
    [rewrite <- IH|rewrite IH]; try done; by eapply val_in_get_of.
Qed.

Lemma deepEqual_live_r n g h v h1 v1 :
  closed g → val_in g v → g ⊆ h →
  deepEqual n h1 v1 h v = deepEqual n h1 v1 g v.
Proof.
  intros Hg Hv Hsub. revert v v1 Hv.
  induction n as [|n IH]; intros v v1 Hv;
    destruct v1 as [| | | | | | |l1]; try done;
    destruct v as [| | | | | | |l2]; try done;
    destruct Hv as [o2 Hl2]; simpl;
    rewrite Hl2, (lookup_weaken _ _ _ _ Hl2 Hsub); [done|].
  destruct (h1 !! l1) as [o1|]; [|done].
  destruct (is_coll o1 && is_coll o2) eqn:Hcoll; [|done].
  destruct (bool_decide (dom (props o1) = dom (props o2))) eqn:Hdom;
    [|by rewrite !andb_false_r].
  apply bool_decide_eq_true in Hdom.
  f_equal. apply eq_true_iff_eq. rewrite !forallb_forall.
  split; intros H k Hk; specialize (H k Hk);
    [rewrite <- IH|rewrite IH]; try done; by eapply val_in_get_of.
Qed.
End live_reads.

(** ** The recursive calls behind a freshly built result *)

Section reducer_calls.
Variable recur : val → val → M val.
Hypothesis recur_frame :
  ∀ c v hi r hj, recur c v hi = Some (r, hj) → hi ⊆ hj.
Hypothesis recur_footprint :
  ∀ c v hi r hj g, recur c v hi = Some (r, hj) →
    g ⊆ hi → closed g → val_in g c → val_in g v →
    ∃ g', extends g hi g' hj r.

Lemma reducer_calls current next h r h' g :
  collection h current = true → collection h next = true →
  reducer recur current next h = Some (r, h') →
  g ⊆ h → closed g → val_in g current → val_in g next →
  ∃ lm rs,
    let oc := obj_at h current in
    let on := obj_at h next in
    let merged := assign_of (filteredCurrent_of oc on) (mapped_of rs) in
    h !! lm = None ∧ h' !! lm = Some merged ∧ h ⊆ h'
    ∧ r = (if shallowEqual_of oc merged then current else VRef lm)
    ∧ (∀ k, props (mapped_of rs) !! k = None
            ↔ props (filteredNext_of on) !! k = None)
    ∧ ∀ k rk, props (mapped_of rs) !! k = Some rk →
        ∃ hi hj gk,
          g ⊆ hi
          ∧ recur (get_of oc k) (get_of (filteredNext_of on) k) hi = Some (rk, hj)
          ∧ gk ⊆ hj ∧ gk ⊆ h' ∧ closed gk ∧ val_in gk rk.
Proof.
  intros Hc Hn Hrun Hsub Hg Hcur Hnext.
  pose proof (reducer_frame _ _ _ _ _ _ recur_frame Hrun) as Hframe.
  destruct (reducer_collections recur recur_frame _ _ _ _ _ Hc Hn Hrun)
    as (lm & l4 & rs & h3 & h4 & H3 & Hlm & Hlm3 & Hchain & Hl4 & Hh' & Hr).
  destruct (collection_Some _ _ Hc) as (lc & oc & -> & Hlc & _).
  destruct (collection_Some _ _ Hn) as (ln & on & -> & Hln & _).
  rewrite (obj_at_ref _ _ _ Hlc), (obj_at_ref _ _ _ Hln) in *.
  pose proof (val_in_obj _ _ _ _ _ Hsub Hcur eq_refl Hlc) as Hgc.
  pose proof (val_in_obj _ _ _ _ _ Hsub Hnext eq_refl Hln) as Hgn.
  assert (Hf : ∀ k hi r hj,
    recur (get_of oc k) (get_of (filteredNext_of on) k) hi = Some (r, hj) → hi ⊆ hj).
  { intros ????. apply recur_frame. }
  exists lm, rs. cbv zeta. split_and!; try done.
  - subst h'. apply lookup_insert_eq.
  - intros k. rewrite (mapped_lookup_chain _ _ _ _ _ k (NoDup_keys_of _) Hchain).
    rewrite elem_of_keys_of, eq_None_not_Some. done.
  - intros k rk Hk%mapped_of_lookup_Some.
    destruct (chain_lookup _ _ _ _ _ _ _ Hf Hchain Hk) as (hi & hj & Hhi & Hhj & Hcall).
    assert (Hghi : g ⊆ hi) by (etrans; [exact Hsub|]; by etrans).
    destruct (recur_footprint _ _ _ _ _ g Hcall Hghi Hg) as (gk & Hext).
    { by eapply val_in_get_of. }
    { unfold get_of.
      destruct (props (filteredNext_of on) !! k) as [v|] eqn:E; [|done].
      apply filteredNext_of_lookup in E as [E _].
      exact (closed_lookup g ln on k v Hg Hgn E). }
    destruct Hext as (_ & Hgkhj & Hgkc & Hgkr & Hnew).
    exists hi, hj, gk. split_and!; try done.
    subst h'. apply insert_subseteq_r.
    + destruct (gk !! lm) eqn:E; [|done]. exfalso.
      destruct (Hnew lm) as [o' Ho']; [done| |].
      * exists (filteredCurrent_of oc on). by eapply lookup_weaken.
      * by rewrite (lookup_weaken _ _ _ _ Ho' Hsub) in Hlm.
    + etrans; [exact Hgkhj|]. etrans; [exact Hhj|]. by apply insert_subseteq.
Qed.
End reducer_calls.

(** ** Sequences whose indices do not shift *)

Section stable.
Implicit Types (o : obj) (v : val) (k : key).

Lemma omap_total {A B : Type} (f : A → option B) (g : A → B) (l : list A) :
  (∀ x, x ∈ l → f x = Some (g x)) → omap f l = g <$> l.
Proof.
  induction l as [|x l IH]; intros H; simpl; [done|].
  rewrite (H x) by by left. f_equal. apply IH. intros y Hy. apply H. by right.
Qed.

Lemma Array_filter_stable o predicate k x :
  (∀ i, i < alen o → ∃ v, props o !! KIdx i = Some v ∧ predicate v (KIdx i) = true) →
  props (Array_filter o predicate) !! k = Some x → props o !! k = Some x.
Proof.
  intros Hall. unfold Array_filter.
  rewrite (omap_total _ (λ i, get_of o (KIdx i))).
  - rewrite array_of_list_lookup. destruct k as [j|]; [|done].
    rewrite list_lookup_fmap.
    destruct (seq 0 (alen o) !! j) as [i|] eqn:E; [|done].
    apply lookup_seq in E as [-> Hlt]. simpl. intros [= <-].
    destruct (Hall j Hlt) as (v & Hv & _). by rewrite (get_of_Some _ _ _ Hv).
  - intros i [_ Hlt]%elem_of_seq. destruct (Hall i) as (v & Hv & Hp); [lia|].
    by rewrite Hv, Hp, (get_of_Some _ _ _ Hv).
Qed.

Lemma filter_of_stable o predicate k x :
  (cls o = ClsArray →
   ∀ i, i < alen o → ∃ v, props o !! KIdx i = Some v ∧ predicate v (KIdx i) = true) →
  props (filter_of o predicate) !! k = Some x → props o !! k = Some x.
Proof.
  intros Hall. unfold filter_of.
  assert (props (pickBy_of o predicate) !! k = Some x → props o !! k = Some x).
  { rewrite pickBy_of_lookup. destruct (props o !! k) as [w|]; [|done].
    by destruct (predicate w k). }
  destruct (cls o) eqn:Hcls; auto. by apply Array_filter_stable, Hall.
Qed.

Lemma filteredCurrent_of_stable oc on k x :
  (if bool_decide (cls oc = ClsArray) then dense oc && unmarked oc on else true) = true →
  props (filteredCurrent_of oc on) !! k = Some x → props oc !! k = Some x.
Proof.
  intros Hst.
  assert (Hall : cls oc = ClsArray → ∀ i, i < alen oc →
    ∃ v, props oc !! KIdx i = Some v
    ∧ negb (strict_eq (get_of on (KIdx i)) VOmit) = true).
  { intros Hcls i Hi. rewrite bool_decide_true in Hst by done.
    apply andb_prop in Hst as [Hd Hu]. unfold dense, unmarked in *.
    rewrite forallb_forall in Hd, Hu.
    assert (Hin : In i (seq 0 (alen oc))) by (apply in_seq; lia).
    specialize (Hd i Hin). specialize (Hu i Hin).
    apply bool_decide_eq_true in Hd as [v Hv]. eauto. }
  unfold filteredCurrent_of.
  destruct (bool_decide (cls oc = ClsArray) && bool_decide (cls on = ClsArray)).
  - rewrite truncate_lookup. destruct (below _ k); [|done].
    by apply (filter_of_stable oc (λ _ key, negb (strict_eq (get_of on key) VOmit))).
  - by apply (filter_of_stable oc (λ _ key, negb (strict_eq (get_of on key) VOmit))).
Qed.

Lemma deepEqual_colls n h1 l1 o1 h2 l2 o2 :
  h1 !! l1 = Some o1 → h2 !! l2 = Some o2 →
  is_coll o1 = true → is_coll o2 = true →
  deepEqual n h1 (VRef l1) h2 (VRef l2) = true →
  ∃ n', n = S n' ∧ cls o1 = cls o2 ∧ dom (props o1) = dom (props o2)
        ∧ (cls o1 = ClsArray → alen o1 = alen o2)
        ∧ ∀ k, is_Some (props o1 !! k) →
               deepEqual n' h1 (get_of o1 k) h2 (get_of o2 k) = true.
Proof.
  intros Hl1 Hl2 Hc1 Hc2. destruct n as [|n']; simpl; rewrite Hl1, Hl2, Hc1, Hc2.
  - done.
  - simpl. intros H. exists n'.
    repeat (apply andb_prop in H as [H ?]).
    repeat match goal with
      | H : bool_decide _ = true |- _ => apply bool_decide_eq_true in H
      end.
    split_and!; try done. intros k Hk.
    match goal with H : forallb _ _ = true |- _ => rewrite forallb_forall in H; apply H end.
    by apply list_elem_of_In, elem_of_keys_of.
Qed.
End stable.

(** ** Structural sharing of a single merge *)

Section sharing.
Implicit Types (g h : heap) (o : obj) (v : val) (k : key) (l : loc).

Lemma reducer_shares recur :
  (∀ c v hi r hj, recur c v hi = Some (r, hj) → hi ⊆ hj) →
  (∀ c v hi r hj g, recur c v hi = Some (r, hj) →
     g ⊆ hi → closed g → val_in g c → val_in g v → ∃ g', extends g hi g' hj r) →
  shares recur → shares (reducer recur).
Proof.
  intros Hframe Hfoot IH current next h r h' g m Hrun Hsub Hg Hcur Hnext Hst
    p v v' n Hp' Hp Hde.
  destruct (collection h current && collection h next) eqn:Hcoll.
  2:{ (* the change simply replaces the current value *)
    rewrite reducer_scalar in Hrun by done. injection Hrun as <- <-.
    destruct p as [|k p]; simpl in Hp, Hp'.
    - injection Hp as <-. injection Hp' as <-.
      destruct next as [| | | | | | |ln]; destruct current as [| | | | | | |lc];
        try (by destruct n; apply bool_decide_eq_true in Hde).
      destruct Hcur as [o2 Hl2].
      destruct (h !! ln) as [o1|] eqn:Hl1;
        [|by destruct n; simpl in Hde; rewrite Hl1 in Hde].
      destruct (is_coll o1 && is_coll o2) eqn:Hboth;
        [|by destruct n; simpl in Hde; rewrite Hl1, Hl2, Hboth in Hde;
        apply bool_decide_eq_true in Hde; subst].
      exfalso. clear Hde. apply andb_prop in Hboth as [Hb1 Hb2].
      rewrite (collection_is_coll _ _ _ Hl1) in Hcoll.
      rewrite (collection_is_coll _ _ o2) in Hcoll by by eapply lookup_weaken.
      rewrite Hb1, Hb2 in Hcoll. done.
    - exfalso. destruct next as [| | | | | | |ln]; try done.
      destruct current as [| | | | | | |lc]; try done.
      destruct (h !! ln) as [o1|] eqn:Hl1; [|done].
      destruct (g !! lc) as [o2|] eqn:Hl2; [|done]. simpl in Hp, Hp'.
      destruct (is_coll o1) eqn:Hc1; [|done].
      destruct (is_coll o2) eqn:Hc2; [|done].
      rewrite (collection_is_coll _ _ _ Hl1) in Hcoll.
      rewrite (collection_is_coll _ _ o2) in Hcoll by by eapply lookup_weaken.
      rewrite Hc1, Hc2 in Hcoll. done. }
  apply andb_prop in Hcoll as [Hc Hn].
  destruct (reducer_calls recur Hframe Hfoot _ _ _ _ _ g Hc Hn Hrun)
    as (lm & rs & Hlm & Hlm' & Hhh' & Hr & Hnone & Hcalls); [done..|].
  destruct (collection_Some _ _ Hc) as (lc & oc & -> & Hlc & Hclc).
  destruct (collection_Some _ _ Hn) as (ln & on & -> & Hln & Hcln).
  rewrite (obj_at_ref _ _ _ Hlc), (obj_at_ref _ _ _ Hln) in *.
  pose proof (val_in_obj _ _ _ _ _ Hsub Hcur eq_refl Hlc) as Hgc.
  pose proof (val_in_obj _ _ _ _ _ Hsub Hnext eq_refl Hln) as Hgn.
  assert (Hgh' : g ⊆ h') by by etrans.
  set (fn := filteredNext_of on) in *.
  set (fc := filteredCurrent_of oc on) in *.
  set (merged := assign_of fc (mapped_of rs)) in *.
  destruct (shallowEqual_of oc merged) eqn:Hshallow.
  { (* short-circuit: the result is [current] itself *)
    subst r. rewrite (lookup_path_weaken _ _ _ _ _ Hp Hgh') in Hp'. congruence. }
  subst r.
  pose proof Hclc as Hcoc. pose proof Hcln as Hcon.
  destruct (is_coll merged) eqn:Hcm.
  2:{ (* the object built is no collection: it has no subtrees, and is
         deep-equal to itself only *)
    destruct p as [|k p]; simpl in Hp, Hp'.
    - injection Hp as <-. injection Hp' as <-. exfalso.
      destruct n; simpl in Hde; rewrite Hlm', Hgc, Hcm in Hde; simpl in Hde;
        apply bool_decide_eq_true in Hde; subst lm; congruence.
    - rewrite Hlm' in Hp'. simpl in Hp'. by rewrite Hcm in Hp'. }
  (* what stability says at this level *)
    assert (∃ m', m = S m'
    ∧ nan_free oc = true
    ∧ (if bool_decide (cls oc = ClsArray) then dense oc && unmarked oc on else true) = true
    ∧ ∀ k, is_Some (props fn !! k) →
    steady m' g (get_of oc k) (get_of fn k) = true)
    as (m' & -> & Hnan & Hstab & Hsub_st).
  { destruct m as [|m']; simpl in Hst; rewrite Hgc, Hgn, Hcoc, Hcon in Hst;
    simpl in Hst; [done|].
    exists m'. apply andb_prop in Hst as [[H0 H1]%andb_prop H2]. split_and!; try done.
    intros k Hk. rewrite forallb_forall in H2. apply H2.
    by apply list_elem_of_In, elem_of_keys_of. }
  (* a key of [merged] either comes from a recursive call or is the
    untouched value of [current] *)
    assert (Hkey : ∀ k x, props merged !! k = Some x →
    (props (mapped_of rs) !! k = Some x)
    ∨ (props (mapped_of rs) !! k = None ∧ props oc !! k = Some x)).
  { intros k x. unfold merged. rewrite assign_of_lookup.
    destruct (props (mapped_of rs) !! k) as [w|] eqn:E; [by left|].
    intros Hx. right. split; [done|]. by eapply filteredCurrent_of_stable. }
  (* a recursive call keeps the promise for its own result *)
    assert (Hrec : ∀ k x q w w' j,
    props (mapped_of rs) !! k = Some x →
    lookup_path h' x q = Some w' → lookup_path g (get_of oc k) q = Some w →
    deepEqual j h' w' g w = true → w' = w).
  { intros k x q w w' j Hk Hq' Hq Hdq.
    destruct (Hcalls k x Hk) as (hi & hj & gk & Hghi & Hcall & Hgkhj & Hgkh' & Hgkc & Hgkx).
    assert (Hfk : is_Some (props fn !! k)).
    { apply not_eq_None_Some. rewrite <- Hnone. by rewrite Hk. }
    rewrite (lookup_path_live gk h') in Hq' by done.
    pose proof (lookup_path_val_in _ _ _ _ Hgkc Hgkx Hq') as Hw'.
    eapply (IH _ _ _ _ _ g m' Hcall Hghi Hg); try done.
    - by eapply val_in_get_of.
    - unfold get_of. destruct (props fn !! k) as [u|] eqn:E; [|done].
      apply filteredNext_of_lookup in E as [E _].
      exact (closed_lookup g ln on k u Hg Hgn E).
    - by apply Hsub_st.
    - by eapply lookup_path_weaken.
    - rewrite (deepEqual_live_l j gk h') in Hdq by done.
      by rewrite (deepEqual_live_l j gk hj). }
  destruct p as [|k p]; simpl in Hp, Hp'.
  - (* the whole result: a fresh object cannot be deep-equal to [current] *)
    exfalso. injection Hp as <-. injection Hp' as <-.
    destruct (deepEqual_colls _ _ _ _ _ _ _ Hlm' Hgc Hcm Hcoc Hde)
      as (n' & -> & _ & Hdom & _ & Hkids).
    assert (shallowEqual_of oc merged = true); [|congruence].
    unfold shallowEqual_of. apply andb_true_intro. split.
    + apply bool_decide_eq_true. by rewrite !length_keys_of, <- !size_dom, Hdom.
    + apply forallb_forall. intros k Hk%list_elem_of_In%elem_of_keys_of.
      apply strict_eq_true. split; [|by apply nan_free_get].
      assert (Hkm : is_Some (props merged !! k)).
      { by rewrite <- elem_of_dom, Hdom, elem_of_dom. }
      destruct Hkm as [x Hx]. rewrite (get_of_Some _ _ _ Hx).
      specialize (Hkids k (ex_intro _ x Hx)). rewrite (get_of_Some _ _ _ Hx) in Hkids.
      destruct (Hkey k x Hx) as [Hm|[_ Ho]].
      * symmetry. by eapply (Hrec k x [] (get_of oc k) x n').
      * by rewrite (get_of_Some _ _ _ Ho).
  - (* a proper subtree *)
    rewrite Hlm' in Hp'. rewrite Hgc in Hp. simpl in Hp, Hp'.
    rewrite Hcm in Hp'. rewrite Hcoc in Hp.
    destruct (props merged !! k) as [x|] eqn:Hx; [|done].
    destruct (props oc !! k) as [y|] eqn:Hy; [|done]. simpl in Hp, Hp'.
    destruct (Hkey k x Hx) as [Hm|[_ Ho]].
    + eapply (Hrec k x p v v' n); try done. by rewrite (get_of_Some _ _ _ Hy).
    + assert (x = y) as -> by congruence.
      rewrite (lookup_path_weaken _ _ _ _ _ Hp Hgh') in Hp'. congruence.
Qed.

Lemma nested_shares fuel : shares (nested fuel).
Proof.
  induction fuel as [|fuel IH]; [by intros ???????|].
  intros current next h r h' g m Hrun. simpl in Hrun.
  rewrite deepMergeChanges_single in Hrun. revert Hrun.
  apply (reducer_shares (nested fuel)); [| |exact IH].
  - intros ?????. apply nested_frame.
  - intros ??????. apply nested_footprint.
Qed.
End sharing.

(** ** The removal marker in the result of a single merge *)

Section marker.
Implicit Types (g h : heap) (o : obj) (v : val) (k : key) (l : loc).

Lemma omit_free_coll m g l o :
  g !! l = Some o → is_coll o = true → omit_free m g (VRef l) = true →
  ∃ m', m = S m' ∧ ∀ k x, props o !! k = Some x → omit_free m' g x = true.
Proof.
  intros Hl Hc. destruct m as [|m']; simpl; rewrite Hl, Hc; [done|].
  intros H. exists m'. split; [done|]. intros k x Hx.
  rewrite forallb_forall in H. rewrite <- (get_of_Some _ _ _ Hx). apply H.
  apply list_elem_of_In, elem_of_keys_of. eauto.
Qed.

Lemma omit_free_paths m g v p :
  omit_free m g v = true → lookup_path g v p ≠ Some VOmit.
Proof.
  revert m v. induction p as [|k p IH]; intros m v Hv; simpl.
  - intros [= ->]. by destruct m.
  - destruct v; try done. destruct (g !! l) as [o|] eqn:Hl; [|done]. simpl.
    destruct (is_coll o) eqn:Hc; [|done].
    destruct (props o !! k) as [x|] eqn:Hx; [|done]. simpl.
    destruct (omit_free_coll _ _ _ _ Hl Hc Hv) as (m' & -> & Hkids).
    by eapply IH, Hkids.
Qed.

Lemma collection_live g h v :
  val_in g v → g ⊆ h → collection h v = collection g v.
Proof.
  destruct v; try done. intros [o Ho] Hsub.
  by rewrite (collection_is_coll g l o), (collection_is_coll h l o)
    by (done || by eapply lookup_weaken).
Qed.

Lemma guarded_verbatim m g current next p :
  collection g current && collection g next = false →
  guarded m g current next = true → lookup_path g next p ≠ Some VOmit.
Proof.
  intros Hcoll Hguard.
  destruct next as [| | | | | | |ln];
    try (by destruct p; [destruct m|]).
  destruct (g !! ln) as [on|] eqn:Hgn.
  2:{ destruct p; [done|]. simpl. by rewrite Hgn. }
  destruct (is_coll on) eqn:Hcon.
  2:{ destruct p; [done|]. simpl. rewrite Hgn. simpl. by rewrite Hcon. }
  rewrite (collection_is_coll _ _ _ Hgn), Hcon, andb_true_r in Hcoll.
  apply (omit_free_paths m).
  destruct m; simpl in Hguard |- *; rewrite Hgn, Hcon in Hguard |- *;
    rewrite Hcoll in Hguard; exact Hguard.
Qed.

Lemma reducer_clean recur :
  (∀ c v hi r hj, recur c v hi = Some (r, hj) → hi ⊆ hj) →
  (∀ c v hi r hj g, recur c v hi = Some (r, hj) →
     g ⊆ hi → closed g → val_in g c → val_in g v → ∃ g', extends g hi g' hj r) →
  clean recur → clean (reducer recur).
Proof.
  intros Hframe Hfoot IH current next h r h' g m m' Hrun Hsub Hg Hcur Hnext
    Hfree Hguard p Hp.
  destruct (collection h current && collection h next) eqn:Hcoll.
  2:{ (* the change is returned verbatim *)
    rewrite reducer_scalar in Hrun by done. injection Hrun as <- <-.
    rewrite (lookup_path_live g h) in Hp by done. revert Hp.
    eapply guarded_verbatim; [|exact Hguard].
    by rewrite <- (collection_live g h current Hcur Hsub),
      <- (collection_live g h next Hnext Hsub). }
  apply andb_prop in Hcoll as [Hc Hn].
  destruct (reducer_calls recur Hframe Hfoot _ _ _ _ _ g Hc Hn Hrun)
    as (lm & rs & Hlm & Hlm' & Hhh' & Hr & Hnone & Hcalls); [done..|].
  destruct (collection_Some _ _ Hc) as (lc & oc & -> & Hlc & Hclc).
  destruct (collection_Some _ _ Hn) as (ln & on & -> & Hln & Hcln).
  rewrite (obj_at_ref _ _ _ Hlc), (obj_at_ref _ _ _ Hln) in *.
  pose proof (val_in_obj _ _ _ _ _ Hsub Hcur eq_refl Hlc) as Hgc.
  pose proof (val_in_obj _ _ _ _ _ Hsub Hnext eq_refl Hln) as Hgn.
  assert (Hgh' : g ⊆ h') by by etrans.
  pose proof Hclc as Hcoc. pose proof Hcln as Hcon.
  set (fn := filteredNext_of on) in *.
  set (merged := assign_of (filteredCurrent_of oc on) (mapped_of rs)) in *.
  destruct (shallowEqual_of oc merged).
  { subst r. rewrite (lookup_path_live g h') in Hp by done.
    by eapply omit_free_paths. }
  subst r. destruct p as [|k p]; simpl in Hp; [done|].
  rewrite Hlm' in Hp. simpl in Hp.
  destruct (is_coll merged); [|done].
  destruct (props merged !! k) as [x|] eqn:Hx; [|done]. simpl in Hp.
  destruct (omit_free_coll _ _ _ _ Hgc Hcoc Hfree) as (m0 & -> & Hkids).
  unfold merged in Hx. rewrite assign_of_lookup in Hx.
  destruct (props (mapped_of rs) !! k) as [w|] eqn:Hm.
  - (* the value under [k] comes from a recursive call *)
    injection Hx as ->.
    destruct (Hcalls k x Hm) as (hi & hj & gk & Hghi & Hcall & Hgkhj & Hgkh' & Hgkc & Hgkx).
    assert (Hfk : is_Some (props fn !! k)).
    { apply not_eq_None_Some. rewrite <- Hnone. by rewrite Hm. }
    rewrite (lookup_path_live gk h') in Hp by done.
    apply (lookup_path_weaken _ hj) in Hp; [|done]. revert Hp.
    assert (∃ m1, guarded m1 g (get_of oc k) (get_of fn k) = true) as [m1 Hg1].
    { destruct m' as [|m1]; simpl in Hguard; rewrite Hgn, Hcon in Hguard;
      rewrite (collection_is_coll _ _ _ Hgc), Hcoc in Hguard; [done|].
      exists m1. rewrite forallb_forall in Hguard.
      specialize (Hguard k). unfold get in Hguard.
      rewrite (obj_at_ref _ _ _ Hgc) in Hguard. apply Hguard.
      by apply list_elem_of_In, elem_of_keys_of. }
    eapply (IH _ _ _ _ _ g m0 m1 Hcall Hghi Hg); try done.
    + by eapply val_in_get_of.
    + unfold get_of. destruct (props fn !! k) as [u|] eqn:E; [|done].
      apply filteredNext_of_lookup in E as [E _].
      exact (closed_lookup g ln on k u Hg Hgn E).
    + unfold get_of. destruct (props oc !! k) as [y|] eqn:Hy; [|by destruct m0].
      by eapply Hkids.
  - (* the value under [k] is a value of [current] *)
    apply filteredCurrent_of_value in Hx as (k' & Hk').
    rewrite (lookup_path_live g h') in Hp; [|done| |done].
    + revert Hp. eapply omit_free_paths. by eapply Hkids.
    + exact (closed_lookup g lc oc k' x Hg Hgc Hk').
Qed.

Lemma nested_clean fuel : clean (nested fuel).
Proof.
  induction fuel as [|fuel IH]; [by intros ????????|].
  intros current next h r h' g m m' Hrun. simpl in Hrun.
  rewrite deepMergeChanges_single in Hrun. revert Hrun.
  apply (reducer_clean (nested fuel)); [| |exact IH].
  - intros ?????. apply nested_frame.
  - intros ??????. apply nested_footprint.
Qed.
End marker.

(** ** Termination: enough fuel gives a result *)

Lemma reducer_nested_total fuel current next h g :
  g ⊆ h → closed g → val_in g next → fits fuel g next = true →
  is_Some (reducer (nested fuel) current next h).
Proof.
  revert current next h.
  induction fuel as [|n IH]; intros current next h Hsub Hg Hnext Hfits;
    (apply reducer_total; [intros ?????; apply nested_frame|]);
    intros Hc Hn k hi Hk Hhi;
    destruct (collection_Some _ _ Hn) as (ln & on & -> & Hln & Hcn);
    pose proof (val_in_obj _ _ _ _ _ Hsub Hnext eq_refl Hln) as Hgn;
    rewrite (obj_at_ref _ _ _ Hln) in *;
    pose proof Hcn as Hcon;
    simpl in Hfits; rewrite Hgn, Hcon in Hfits.
  - apply bool_decide_eq_true in Hfits.
    apply elem_of_keys_of in Hk. rewrite Hfits in Hk. by apply elem_of_nil in Hk.
  - simpl. rewrite deepMergeChanges_single.
    rewrite forallb_forall in Hfits.
    assert (Hkv : props on !! k = Some (get_of (filteredNext_of on) k)).
    { destruct Hk as [v Hv]. rewrite (get_of_Some _ _ _ Hv).
      by apply filteredNext_of_lookup in Hv as [? _]. }
    apply (IH _ _ _ (transitivity Hsub Hhi) Hg).
    + exact (closed_lookup g ln on k _ Hg Hgn Hkv).
    + rewrite <- (get_of_Some _ _ _ Hkv).
      apply Hfits. by apply list_elem_of_In, elem_of_keys_of.
Qed.

(** ** What the shallow comparison tells, and what line 58 hands back *)

Lemma shallowEqual_of_sound x y :
  shallowEqual_of x y = true → dom (props x) ⊆ dom (props y) → props y = props x.
Proof.
  unfold shallowEqual_of. intros [Hlen Hall]%andb_prop Hsub.
  apply bool_decide_eq_true in Hlen. rewrite !length_keys_of, <- !size_dom in Hlen.
  assert (Hdom : dom (props x) = dom (props y))
    by (apply set_subseteq_size_eq; [done|lia]).
  rewrite forallb_forall in Hall.
  apply map_eq. intros k. destruct (props x !! k) as [v|] eqn:Hx.
  - assert (Hy : is_Some (props y !! k)) by (rewrite <- elem_of_dom, <- Hdom, elem_of_dom; eauto).
    destruct Hy as [w Hw]. rewrite Hw. f_equal.
    assert (Hin : In k (keys_of x)) by (apply list_elem_of_In, elem_of_keys_of; eauto).
    specialize (Hall k Hin). apply strict_eq_true in Hall as [Hall _].
    by rewrite (get_of_Some _ _ _ Hx), (get_of_Some _ _ _ Hw) in Hall.
  - apply not_elem_of_dom. rewrite <- Hdom. by apply not_elem_of_dom.
Qed.

Lemma defined_lookup o k : defined o → props o !! k ≠ Some VUndefined.
Proof. intros Hd Hk. by apply (Hd k VUndefined Hk). Qed.

Lemma shallowEqual_of_defined current next :
  defined current → shallowEqual_of current next = true → props next = props current.
Proof.
  intros Hdef Heq. apply shallowEqual_of_sound; [done|].
  apply andb_prop in Heq as [_ Hall]. rewrite forallb_forall in Hall.
  intros k [v Hv]%elem_of_dom. apply elem_of_dom.
  assert (Hin : k ∈ keys_of current) by (apply elem_of_keys_of; eauto).
  apply list_elem_of_In, Hall, strict_eq_true in Hin as [Hin _].
  rewrite (get_of_Some _ _ _ Hv) in Hin.
  destruct (props next !! k) as [w|] eqn:Hw; [eauto|].
  rewrite (get_of_None _ _ Hw) in Hin. subst v.
  by destruct (defined_lookup current k Hdef).
Qed.

Lemma shallowEqual_of_reads current next k :
  shallowEqual_of current next = true → is_Some (props current !! k) →
  get_of current k = get_of next k.
Proof.
  intros [_ Hall]%andb_prop Hk. rewrite forallb_forall in Hall.
  apply elem_of_keys_of, list_elem_of_In, Hall in Hk.
  by apply strict_eq_true in Hk as [Hk _].
Qed.

Lemma result_object current lm merged (h h' : heap) :
  h !! lm = None → h ⊆ h' → h' !! lm = Some merged →
  ∀ lc oc, current = VRef lc → h !! lc = Some oc →
  obj_at h' (if shallowEqual_of oc merged then current else VRef lm)
  = if shallowEqual_of oc merged then oc else merged.
Proof.
  intros Hlm Hsub Hlm' lc oc -> Hlc. destruct (shallowEqual_of oc merged).
  - by eapply obj_at_weaken.
  - by apply obj_at_ref.
Qed.

(** What the value handed back by line 58 holds, compared with [merged]. *)
Lemma returned_object oc merged :
  let returned := if shallowEqual_of oc merged then oc else merged in
  (defined oc → props returned = props merged)
  ∧ (∀ k, is_Some (props oc !! k) → get_of returned k = get_of merged k).
Proof.
  cbv zeta. destruct (shallowEqual_of oc merged) eqn:Hsh; [|done]. split.
  - intros Hdef. symmetry. by apply shallowEqual_of_defined.
  - intros k Hk. by apply shallowEqual_of_reads.
Qed.

(** * The claims *)

(** ** Replacement of non-collections (C6) and the bare marker (C10) *)

(** C6, as amended.  [isCollection] throws for no value.  Whenever
    [current] is not a collection or [next] is not a collection, the
    pairwise merge returns [next] verbatim and does not throw: it returns
    in the unchanged store, with any amount of fuel.  [null] is not a
    collection, and neither is an object that is not an array and whose
    [constructor] reads neither [Object] nor [null]: a Date, a Map, a Set,
    an instance of a class that keeps its constructor.  Such an object
    replaces, and is replaced, wholesale. *)
Theorem non_collection_is_replaced :
  (∀ h value, is_Some (isCollection h value))
  ∧ (∀ fuel current next h,
       isCollection h current = Some false ∨ isCollection h next = Some false →
       deepMergeChanges fuel current [next] h = Some (next, h))
  ∧ (∀ h, isCollection h VNull = Some false)
  ∧ (∀ h l o,
       h !! l = Some o → cls o ≠ ClsArray → constructor_of o = CtorOther →
       isCollection h (VRef l) = Some false)
  ∧ (∀ fuel h l o v,
       h !! l = Some o → cls o ≠ ClsArray → constructor_of o = CtorOther →
       deepMergeChanges fuel (VRef l) [v] h = Some (v, h)
       ∧ deepMergeChanges fuel v [VRef l] h = Some (VRef l, h)).
Proof.
  assert (Hrepl : ∀ fuel current next h,
    isCollection h current = Some false ∨ isCollection h next = Some false →
    deepMergeChanges fuel current [next] h = Some (next, h)).
  { intros fuel current next h Hnot. rewrite deepMergeChanges_single.
    apply reducer_scalar.
    destruct Hnot as [->%isCollection_returns | ->%isCollection_returns];
      [done|apply andb_false_r]. }
  assert (Hother : ∀ h l o,
    h !! l = Some o → cls o ≠ ClsArray → constructor_of o = CtorOther →
    isCollection h (VRef l) = Some false).
  { intros h l o Hl Hcls Hctor. apply isCollection_returns.
    rewrite (collection_ref _ _ _ Hl). unfold is_coll.
    by rewrite Hctor, (bool_decide_false (cls o = ClsArray)). }
  split_and!.
  - intros h value. rewrite isCollection_collection. eauto.
  - exact Hrepl.
  - done.
  - exact Hother.
  - intros fuel h l o v Hl Hcls Hctor.
    split; apply Hrepl; [left|right]; by eapply Hother.
Qed.

(** C10.  The bare marker passed as a change is not a collection, so it
    overwrites: the call returns the marker itself. *)
Theorem bare_marker_overwrites fuel current h :
  deepMergeChanges fuel current [VOmit] h = Some (VOmit, h).
Proof.
  rewrite deepMergeChanges_single. apply reducer_scalar. apply andb_false_r.
Qed.

(** ** The variadic fold (C8) *)

(** C8.  [deepMergeChanges(x, a, b)] is [deepMergeChanges(deepMergeChanges(x, a), b)]:
    the second merge runs on the result and in the store of the first; more
    generally a list of changes can be split anywhere. *)
Theorem fold_equivalence fuel x h :
  (∀ a b,
     deepMergeChanges fuel x [a; b] h
     = '(r, h1) ← deepMergeChanges fuel x [a] h; deepMergeChanges fuel r [b] h1)
  ∧ (∀ changes1 changes2,
       deepMergeChanges fuel x (changes1 ++ changes2) h
       = '(r, h1) ← deepMergeChanges fuel x changes1 h;
         deepMergeChanges fuel r changes2 h1).
Proof.
  assert (Happ : ∀ changes1 changes2,
    deepMergeChanges fuel x (changes1 ++ changes2) h
    = '(r, h1) ← deepMergeChanges fuel x changes1 h;
      deepMergeChanges fuel r changes2 h1).
  { intros changes1 changes2. rewrite !deepMergeChanges_unfold, reduceM_app.
    destruct (reduceM _ changes1 x h) as [[r h1]|]; simpl; [|done].
    by rewrite deepMergeChanges_unfold. }
  split; [|exact Happ]. intros a b. apply (Happ [a] [b]).
Qed.

(** ** No mutation (C9) *)

Lemma deepEqual_weaken_r n h1 v1 h2 h2' v2 :
  deepEqual n h1 v1 h2 v2 = true → h2 ⊆ h2' → deepEqual n h1 v1 h2' v2 = true.
Proof.
  intros Hde Hsub. revert v1 v2 Hde.
  induction n as [|n IH]; intros v1 v2;
    destruct v1 as [| | | | | | |l1]; try done;
    destruct v2 as [| | | | | | |l2]; try done; simpl;
    destruct (h1 !! l1) as [o1|]; try done;
    destruct (h2 !! l2) as [o2|] eqn:Hl2; try done;
    rewrite (lookup_weaken _ _ _ _ Hl2 Hsub); [done|].
  destruct (is_coll o1 && is_coll o2); [|done].
  intros H. repeat (apply andb_prop in H as [H ?]).
  repeat (apply andb_true_intro; split); try done.
  rewrite forallb_forall in *. eauto.
Qed.

(** C9.  A call leaves every object that existed before it exactly as it
    was: the final store extends the initial one, so whatever the call
    built lives at locations that were free before.  In particular a value
    that is deep-equal to itself before the call (any input, at any depth)
    is deep-equal to its state after the call. *)
Theorem inputs_are_not_mutated fuel current changes h r h' :
  deepMergeChanges fuel current changes h = Some (r, h') →
  (∀ l o, h !! l = Some o → h' !! l = Some o)
  ∧ (∀ l, h !! l ≠ h' !! l → h !! l = None)
  ∧ (∀ n v, deepEqual n h v h v = true → deepEqual n h v h' v = true).
Proof.
  intros Hrun. pose proof (deepMergeChanges_frame _ _ _ _ _ _ Hrun) as Hsub.
  split_and!.
  - intros l o Hl. by eapply lookup_weaken.
  - intros l Hne. destruct (h !! l) as [o|] eqn:Hl; [|done].
    by rewrite (lookup_weaken _ _ _ _ Hl Hsub) in Hne.
  - intros n v Hv. by eapply deepEqual_weaken_r.
Qed.


(** ** Reference preservation (C1) *)




(** Why the amended claim asks for stable indices: removing index 0 shifts
    the second empty record into the first slot, and the patched second
    slot is that same record again; the result is deep-equal to [current]
    and is a new sequence. *)
Lemma shifted_indices_yield_a_copy :
  let s := scene_shifted in
  call 1 s = Some (result 1 s, final 1 s)
  ∧ closed (s_heap s)
  ∧ steady 2 (s_heap s) (s_current s) (change s) = false
  ∧ deepEqual 2 (final 1 s) (result 1 s) (s_heap s) (s_current s) = true
  ∧ result 1 s ≠ s_current s.
Proof.
  cbv zeta. split_and!;
    [by_evaluation|by_decision|by_evaluation|by_evaluation|by vm_compute].
Qed.

(** Why the amended claim asks for entries other than NaN: line 5 compares
    with [===], under which NaN differs from itself, so a record that
    holds NaN is never recognised as unchanged; the result is deep-equal
    to [current] and is a new record. *)
Lemma nan_entry_yields_a_copy :
  let s := scene_nan in
  call 1 s = Some (result 1 s, final 1 s)
  ∧ closed (s_heap s)
  ∧ steady 2 (s_heap s) (s_current s) (change s) = false
  ∧ deepEqual 2 (final 1 s) (result 1 s) (s_heap s) (s_current s) = true
  ∧ result 1 s ≠ s_current s.
Proof.
  cbv zeta. split_and!;
    [by_evaluation|by_decision|by_evaluation|by_evaluation|by vm_compute].
Qed.

(** ** The shallow-equality short-circuit (C2) *)

(** C2, the defect.  [shallowEqual] counts keys and compares
    [current[key]] with [merged[key]] for the keys of [current] only; it
    never checks that [merged] has those keys.  On
    [deepMergeChanges({a: undefined}, {a: OMIT, b: undefined})] the merged
    collection is [{b: undefined}]: its key set differs from that of
    [current], yet [shallowEqual] answers true and the call returns
    [current], that is [{a: undefined}]. *)
Theorem shallowEqual_ignores_key_names :
  let s := scene_undefined_swap in
  let merged := VRef 3%positive in
  call 1 s = Some (s_current s, final 1 s)
  ∧ s_heap s !! 3%positive = None
  ∧ final 1 s !! 3%positive
    = Some (assign_of (filteredCurrent_of (obj_at (s_heap s) (s_current s))
                                          (obj_at (s_heap s) (change s)))
                      (mapped_of [(KName "b", VUndefined)]))
  ∧ matches (final 1 s) merged (LObj [fld "b" LUndefined]) = true
  ∧ keys (final 1 s) merged = [KName "b"]
  ∧ keys (final 1 s) (s_current s) = [KName "a"]
  ∧ shallowEqual (final 1 s) (s_current s) merged = true
  ∧ matches (final 1 s) (result 1 s) (LObj [fld "a" LUndefined]) = true.
Proof. cbv zeta. split_and!; by_evaluation. Qed.

(** ** The removal marker in the result (C3) *)




(** ** Replacement of non-collections: an instance (C6) *)

Lemma non_collection_is_replaced_witness :
  isCollection heap_with_date VNull = Some false
  ∧ isCollection heap_with_date (VRef 1%positive) = Some false
  ∧ isCollection heap_with_date (VRef 2%positive) = Some true
  ∧ deepMergeChanges 0 VNull [VRef 2%positive] heap_with_date
    = Some (VRef 2%positive, heap_with_date)
  ∧ deepMergeChanges 0 (VRef 2%positive) [VRef 1%positive] heap_with_date
    = Some (VRef 1%positive, heap_with_date)
  ∧ deepMergeChanges 0 (VRef 1%positive) [VRef 2%positive] heap_with_date
    = Some (VRef 2%positive, heap_with_date)
  ∧ deepMergeChanges 0 (VRef 2%positive) [VNull] heap_with_date
    = Some (VNull, heap_with_date).
Proof.
  destruct non_collection_is_replaced as (_ & Hrepl & Hnull & Hother & Hwhole).
  assert (Hdate : isCollection heap_with_date (VRef 1%positive) = Some false).
  { apply (Hother heap_with_date 1%positive
             (obj_at heap_with_date (VRef 1%positive))); by vm_compute. }
  destruct (Hwhole 0 heap_with_date 1%positive
              (obj_at heap_with_date (VRef 1%positive)) (VRef 2%positive))
    as [Hreplaced _]; [by vm_compute..|].
  split_and!.
  - apply Hnull.
  - exact Hdate.
  - by_evaluation.
  - apply Hrepl. left. apply Hnull.
  - apply Hrepl. right. exact Hdate.
  - exact Hreplaced.
  - apply Hrepl. right. apply Hnull.
Defined.

(** C6, counterexample.  An object that is not plain is treated as a
    collection when its [constructor] reads [Object], as it does for an
    instance whose prototype is an object literal: patched with
    [{x: 5}], the instance [{x: 1, y: 2}] is not replaced by the change
    but merged key by key into a new plain object. *)
Lemma instance_is_merged :
  let h := heap_with_instance in
  let run := deepMergeChanges 1 (VRef 1%positive) [VRef 2%positive] h in
  let r := (default (VUndefined, ∅) run).1 in
  let h' := (default (VUndefined, ∅) run).2 in
  cls (obj_at h (VRef 1%positive)) = ClsInstance CtorObject
  ∧ isCollection h (VRef 1%positive) = Some true
  ∧ run = Some (r, h')
  ∧ r ≠ VRef 2%positive
  ∧ r ≠ VRef 1%positive
  ∧ matches h' r (LObj [fld "x" (N 5); fld "y" (N 2)]) = true.
Proof. cbv zeta. split_and!; (by_evaluation || by vm_compute). Qed.

(** ** No mutation: an instance (C9) *)

Lemma inputs_are_not_mutated_witness :
  let s := scene_nested_patch in
  call 2 s = Some (result 2 s, final 2 s)
  ∧ deepEqual 2 (s_heap s) (s_current s) (final 2 s) (s_current s) = true
  ∧ deepEqual 2 (s_heap s) (change s) (final 2 s) (change s) = true
  ∧ final 2 s !! 7%positive ≠ s_heap s !! 7%positive
  ∧ s_heap s !! 7%positive = None.
Proof.
  cbv zeta.
  assert (Hrun : deepMergeChanges 2 (s_current scene_nested_patch)
                   (s_changes scene_nested_patch) (s_heap scene_nested_patch)
                 = Some (result 2 scene_nested_patch, final 2 scene_nested_patch))
    by by_evaluation.
  destruct (inputs_are_not_mutated _ _ _ _ _ _ Hrun) as (_ & Hfresh & Hdeep).
  split_and!.
  - exact Hrun.
  - apply Hdeep. by_evaluation.
  - apply Hdeep. by_evaluation.
  - by vm_compute.
  - apply Hfresh. by vm_compute.
Defined.

(** ** Calls that change nothing (C7) *)

Lemma keys_of_nil o : props o = ∅ → keys_of o = [].
Proof. unfold keys_of. intros ->. by rewrite map_to_list_empty. Qed.

Lemma shallowEqual_of_same_props x y :
  props y = props x → nan_free x = true → shallowEqual_of x y = true.
Proof.
  intros Hp Hnan. unfold shallowEqual_of.
  apply andb_true_intro. split.
  - apply bool_decide_eq_true. unfold keys_of. by rewrite Hp.
  - apply forallb_forall. intros k Hk%list_elem_of_In%elem_of_keys_of.
    unfold get_of at 2. rewrite Hp. apply strict_eq_refl. by apply nan_free_get.
Qed.

(** A change whose entries are all markers on keys that a record does not
    have leaves nothing for the merge to do. *)
Lemma absent_removals_return_current fuel lx x ln n h :
  h !! lx = Some x → is_coll x = true → cls x ≠ ClsArray → nan_free x = true →
  h !! ln = Some n → is_coll n = true →
  (∀ k v, props n !! k = Some v → v = VOmit ∧ props x !! k = None) →
  ∃ h', deepMergeChanges fuel (VRef lx) [VRef ln] h = Some (VRef lx, h').
Proof.
  intros Hlx Hcx Hna Hnan Hln Hcn Hall. rewrite deepMergeChanges_single.
  assert (Hc : collection h (VRef lx) = true)
    by by rewrite (collection_is_coll _ _ _ Hlx).
  assert (Hn : collection h (VRef ln) = true)
    by by rewrite (collection_is_coll _ _ _ Hln).
  assert (Hfn : props (filteredNext_of n) = ∅).
  { apply map_eq. intros k. rewrite lookup_empty. apply filteredNext_of_None.
    destruct (props n !! k) as [v|] eqn:E; [|by left].
    right. by destruct (Hall k v E) as [-> _]. }
  assert (Hframe : ∀ c v hi r hj, nested fuel c v hi = Some (r, hj) → hi ⊆ hj)
    by (intros ?????; apply nested_frame).
  destruct (reducer_total (nested fuel) Hframe (VRef lx) (VRef ln) h)
    as [[r h'] Hrun].
  { intros _ _ k hi [v Hk]. rewrite (obj_at_ref _ _ _ Hln), Hfn in Hk.
    by rewrite lookup_empty in Hk. }
  exists h'. rewrite Hrun. do 2 f_equal.
  destruct (reducer_collections (nested fuel) Hframe _ _ _ _ _ Hc Hn Hrun)
    as (lm & l4 & rs & h3 & h4 & _ & _ & _ & Hchain & _ & _ & ->).
  rewrite (obj_at_ref _ _ _ Hlx), (obj_at_ref _ _ _ Hln) in *.
  rewrite (keys_of_nil _ Hfn) in Hchain. destruct rs as [|[??] ?]; [|done].
  rewrite shallowEqual_of_same_props; [done| |done].
  apply map_eq. intros k. rewrite assign_of_lookup. simpl. rewrite lookup_empty.
  unfold filteredCurrent_of. rewrite (bool_decide_false (cls x = ClsArray)) by done.
  simpl. unfold filter_of.
  assert (props (pickBy_of x (λ _ key, negb (strict_eq (get_of n key) VOmit))) !! k
          = props x !! k) as Hpick.
  { rewrite pickBy_of_lookup. destruct (props x !! k) as [v|] eqn:Hk; [|done].
    rewrite strict_eq_omit, bool_decide_false; [done|].
    unfold get_of. destruct (props n !! k) as [w|] eqn:Hw; [|done].
    destruct (Hall k w Hw) as [_ ?]. congruence. }
  by destruct (cls x).
Qed.




(** Why the amended claim asks that [isCollection] accept [x]: the plain
    record [{constructor: 1, a: 1}] reads a [constructor] that is neither
    [Object] nor [null], so it is no collection and
    [deepMergeChanges(x, {})] returns the change [{}]. *)
Lemma own_constructor_is_replaced :
  let h := heap_with_own_constructor in
  cls (obj_at h (VRef 1%positive)) = ClsObject
  ∧ isCollection h (VRef 1%positive) = Some false
  ∧ deepMergeChanges 1 (VRef 1%positive) [VRef 2%positive] h
    = Some (VRef 2%positive, h).
Proof. cbv zeta. split_and!; by_evaluation. Qed.

(** ** Two sequences (C4) *)

Lemma obj_eq (o1 o2 : obj) :
  cls o1 = cls o2 → alen o1 = alen o2 → props o1 = props o2 → o1 = o2.
Proof. destruct o1, o2. simpl. by intros -> -> ->. Qed.

Lemma foldr_max_init (a : nat) (l : list nat) :
  foldr Nat.max a l = Nat.max a (foldr Nat.max 0 l).
Proof. induction l as [|x l IH]; simpl; lia. Qed.

Lemma spec_length_bound (o : obj) : spec_length o = bound (keys_of o).
Proof.
  unfold spec_length, numeric_keys, bound, omap.
  induction (keys_of o) as [|k ks IH]; simpl; [done|].
  destruct k as [i|s]; simpl; [|done]. rewrite <- IH.
  destruct (list_omap _ _ _ ks) as [|j js]; simpl; [lia|].
  rewrite (foldr_max_init i), (foldr_max_init j). lia.
Qed.

Lemma bound_above (ks : list key) (i : nat) : KIdx i ∈ ks → i < bound ks.
Proof.
  induction ks as [|k ks IH]; simpl; [by intros ?%elem_of_nil|].
  intros [<-|Hin]%elem_of_cons; [lia|]. specialize (IH Hin).
  destruct k; lia.
Qed.

Lemma bound_attained (ks : list key) : bound ks = 0 ∨ KIdx (bound ks - 1) ∈ ks.
Proof.
  induction ks as [|k ks IH]; simpl; [by left|].
  destruct k as [i|s].
  - right. destruct (decide (bound ks ≤ S i)).
    + replace (Nat.max (S i) (bound ks) - 1) with i by lia. by left.
    + replace (Nat.max (S i) (bound ks)) with (bound ks) by lia.
      destruct IH as [?|?]; [lia|by right].
  - destruct IH as [?|?]; [by left|right; by right].
Qed.

Lemma bound_same_indices (ks1 ks2 : list key) :
  (∀ i, KIdx i ∈ ks1 ↔ KIdx i ∈ ks2) → bound ks1 = bound ks2.
Proof.
  intros Hsame.
  destruct (bound_attained ks1) as [H1|H1], (bound_attained ks2) as [H2|H2].
  - lia.
  - apply Hsame, bound_above in H2. lia.
  - apply Hsame, bound_above in H1. lia.
  - pose proof (bound_above _ _ (proj1 (Hsame _) H1)).
    pose proof (bound_above _ _ (proj2 (Hsame _) H2)). lia.
Qed.

Lemma Math_max_indices (ks : list key) :
  (∀ k, k ∈ ks → ∃ i, k = KIdx i) →
  Math_max (Number <$> ks)
  = match bound ks with O => NegInfinity | S m => Num m end.
Proof.
  unfold Math_max. intros Hidx.
  assert (Hgen : ∀ a, a ≠ NaN →
    foldl max2 a (Number <$> ks)
    = max2 a (match bound ks with O => NegInfinity | S m => Num m end)).
  { induction ks as [|k ks IH]; intros a Ha; simpl.
    - by destruct a.
    - destruct (Hidx k) as [i ->]; [by left|]. simpl.
      rewrite IH.
      + destruct a, (bound ks) as [|b]; simpl; try done; f_equal; lia.
      + intros k' Hk'. apply Hidx. by right.
      + by destruct a. }
  rewrite Hgen by done. by destruct (bound ks).
Qed.

Lemma alen_assignments (f : key → val) (ks : list key) (o : obj) :
  cls o = ClsArray →
  alen (foldl (λ acc key, set_prop key (f key) acc) o ks)
  = Nat.max (alen o) (bound ks).
Proof.
  revert o. induction ks as [|k ks IH]; intros o Hcls; simpl; [lia|].
  rewrite IH by done. simpl. rewrite Hcls. destruct k; lia.
Qed.

Lemma alen_assign_of (target source : obj) :
  cls target = ClsArray →
  alen (assign_of target source) = Nat.max (alen target) (bound (keys_of source)).
Proof. apply alen_assignments. Qed.

(** Truncating to the largest index, as the code does, or to one more, as
    the specification says, makes no difference once the recursed values
    are assigned: the largest index is one of them. *)
Lemma sequence_merge_refines (oc on mapped : obj) :
  cls oc = ClsArray → cls on = ClsArray →
  (∀ k, is_Some (props on !! k) → ∃ i, k = KIdx i) →
  (∀ k, is_Some (props mapped !! k) ↔ is_Some (props (filteredNext_of on) !! k)) →
  assign_of (filteredCurrent_of oc on) mapped = spec_sequence_merge oc on mapped.
Proof.
  intros Hoc Hon Hidx Hdom.
  unfold filteredCurrent_of, spec_sequence_merge, filter_of.
  rewrite Hoc, !bool_decide_true by done. simpl andb. cbv iota.
  set (fn := filteredNext_of on) in *.
  set (fc := Array_filter oc _).
  assert (Hfn_idx : ∀ k, k ∈ keys_of fn → ∃ i, k = KIdx i).
  { intros k [v Hv]%elem_of_keys_of. apply Hidx.
    apply filteredNext_of_lookup in Hv as [Hv _]. eauto. }
  rewrite (Math_max_indices _ Hfn_idx), spec_length_bound.
  assert (Hmapped : bound (keys_of mapped) = bound (keys_of fn)).
  { apply bound_same_indices. intros i. by rewrite !elem_of_keys_of. }
  pose proof (bound_attained (keys_of fn)) as Hatt.
  apply obj_eq.
  - by rewrite !assign_of_cls.
  - rewrite !alen_assign_of by done. rewrite Hmapped. cbn [truncate alen].
    generalize (alen fc). intros len.
    destruct (bound (keys_of fn)); cbn [slice_bound]; lia.
  - apply map_eq. intros k. rewrite !assign_of_lookup.
    destruct (props mapped !! k) as [v|] eqn:Hk; [done|].
    rewrite !truncate_lookup.
    assert (Hnot : k ∉ keys_of fn).
    { rewrite elem_of_keys_of, <- Hdom, Hk. by intros [? ?]. }
    destruct k as [j|]; [|done]. cbn [below].
    generalize (alen fc) (props fc). intros len pf.
    destruct (bound (keys_of fn)) as [|b] eqn:Hb; cbn [slice_bound].
    + by rewrite !bool_decide_false by lia.
    + destruct Hatt as [?|Hin]; [done|]. replace (S b - 1) with b in Hin by lia.
      assert (j ≠ b) by (intros ->; done).
      by rewrite (bool_decide_ext (j < Nat.min b len) (j < Nat.min (S b) len)) by lia.
Qed.

Lemma index_keyed_lookup o k :
  index_keyed o → is_Some (props o !! k) → ∃ i, k = KIdx i ∧ i < alen o.
Proof.
  intros Hidx [v Hv]. specialize (Hidx k v Hv). simpl in Hidx.
  destruct k as [i|]; [|done]. eauto.
Qed.

Lemma bound_index_keyed on :
  index_keyed on → bound (keys_of (filteredNext_of on)) ≤ alen on.
Proof.
  intros Hidx. destruct (bound_attained (keys_of (filteredNext_of on))) as [->|Hin]; [lia|].
  apply elem_of_keys_of in Hin as [v Hv].
  apply filteredNext_of_lookup in Hv as [Hv _].
  destruct (index_keyed_lookup on _ Hidx (ex_intro _ v Hv)) as (i & [= Hi] & Hlt). lia.
Qed.

Lemma proper_sequence_keys o k :
  proper_sequence o → is_Some (props o !! k) ↔ ∃ i, k = KIdx i ∧ i < alen o.
Proof.
  intros (_ & Hidx & Hdense). split; [by apply index_keyed_lookup|].
  intros (i & -> & Hi). unfold dense in Hdense. rewrite forallb_forall in Hdense.
  eapply bool_decide_eq_true_1, Hdense, in_seq. lia.
Qed.

(** When [next] is a proper sequence without markers, the assigned values
    cover the truncated [filteredCurrent] entirely. *)
Lemma sequence_merge_replaces oc on mapped :
  proper_sequence on → (∀ k, props on !! k ≠ Some VOmit) →
  (∀ k, is_Some (props mapped !! k) ↔ is_Some (props (filteredNext_of on) !! k)) →
  props (spec_sequence_merge oc on mapped) = props mapped
  ∧ alen (spec_sequence_merge oc on mapped) = alen on.
Proof.
  intros Hprop Hnomark Hdom. pose proof Hprop as (Hon & Hidx & _).
  set (fn := filteredNext_of on) in *.
  assert (Hfn : ∀ k, is_Some (props fn !! k) ↔ ∃ i, k = KIdx i ∧ i < alen on).
  { intros k. rewrite <- (proper_sequence_keys on k Hprop). split.
    - intros [v Hv]. apply filteredNext_of_lookup in Hv as [Hv _]. eauto.
    - intros [v Hv]. exists v. apply filteredNext_of_lookup. split; [done|].
      intros ->. by apply (Hnomark k). }
  assert (Hlen : bound (keys_of fn) = alen on).
  { pose proof (bound_index_keyed on Hidx) as Hle. fold fn in Hle.
    destruct (decide (alen on = 0)) as [?|Hpos]; [lia|].
    assert (Hin : KIdx (alen on - 1) ∈ keys_of fn).
    { apply elem_of_keys_of, Hfn. exists (alen on - 1). split; [done|lia]. }
    apply bound_above in Hin. lia. }
  assert (Hbm : bound (keys_of mapped) = bound (keys_of fn)).
  { apply bound_same_indices. intros i. by rewrite !elem_of_keys_of. }
  unfold spec_sequence_merge. fold fn. rewrite spec_length_bound, Hlen. split.
  - apply map_eq. intros k. rewrite assign_of_lookup.
    destruct (props mapped !! k) as [v|] eqn:Hk; [done|].
    rewrite truncate_lookup.
    destruct k as [j|]; [|done]. simpl.
    rewrite bool_decide_false; [done|]. intros Hj.
    assert (is_Some (props mapped !! KIdx j)) as [? ?]; [|congruence].
    apply Hdom, Hfn. exists j. split; [done|lia].
  - rewrite alen_assign_of by done. rewrite Hbm, Hlen. simpl. lia.
Qed.




(** ** A sequence patched by a record (C5) *)

Lemma size_index_map (m : gmap key val) (n : nat) :
  (∀ k, is_Some (m !! k) ↔ ∃ i, k = KIdx i ∧ i < n) → size m = n.
Proof.
  intros Hdom.
  assert (Hset : dom m = list_to_set (KIdx <$> seq 0 n)).
  { apply set_eq. intros k.
    rewrite elem_of_dom, Hdom, elem_of_list_to_set, list_elem_of_fmap.
    split; intros (i & -> & Hi); exists i; (split; [done|]).
    - apply elem_of_seq. lia.
    - apply elem_of_seq in Hi. lia. }
  rewrite <- size_dom, Hset, size_list_to_set, length_fmap, length_seq; [done|].
  apply NoDup_fmap_2; [by intros ?? [= ->]|apply NoDup_seq].
Qed.

Lemma array_of_list_keys vs k :
  is_Some (props (array_of_list vs) !! k) ↔ ∃ i, k = KIdx i ∧ i < length vs.
Proof.
  rewrite array_of_list_lookup. destruct k as [j|s].
  - rewrite lookup_lt_is_Some. split; [eauto|]. by intros (i & [= ->] & ?).
  - split; [by intros [? ?]|]. by intros (i & ? & _).
Qed.

(** Filtering a proper sequence with a predicate that holds everywhere
    copies it. *)
Lemma Array_filter_copy o predicate :
  proper_sequence o →
  (∀ i v, props o !! KIdx i = Some v → predicate v (KIdx i) = true) →
  props (Array_filter o predicate) = props o
  ∧ alen (Array_filter o predicate) = alen o.
Proof.
  intros Hprop Hall. unfold Array_filter.
  rewrite (omap_total _ (λ i, get_of o (KIdx i))).
  - split; [|by simpl; rewrite length_fmap, length_seq].
    apply map_eq. intros k. rewrite array_of_list_lookup.
    destruct k as [j|s].
    + rewrite list_lookup_fmap.
      destruct (decide (j < alen o)) as [Hlt|Hge].
      * rewrite lookup_seq_lt by done. simpl.
        destruct (proj2 (proper_sequence_keys o (KIdx j) Hprop)) as [v Hv]; [eauto|].
        by rewrite Hv, (get_of_Some _ _ _ Hv).
      * rewrite lookup_seq_ge by lia. simpl. symmetry. apply eq_None_not_Some.
        rewrite (proper_sequence_keys o (KIdx j) Hprop). intros (i & [= <-] & ?). lia.
    + symmetry. apply eq_None_not_Some.
      rewrite (proper_sequence_keys o (KName s) Hprop). by intros (i & ? & _).
  - intros i [_ Hlt]%elem_of_seq.
    destruct (proj2 (proper_sequence_keys o (KIdx i) Hprop)) as [v Hv]; [exists i; split; [done|lia]|].
    by rewrite Hv, (Hall i v Hv), (get_of_Some _ _ _ Hv).
Qed.




(** * Further properties of [index.js] *)

(** ** The helpers *)

(** X1.  [shallowEqual], lines 1-7.  When no own property of [current] holds
    [undefined], the answer is [true] exactly when [next] has the same
    keys as [current], with strictly equal values; when moreover no entry
    of [current] is NaN, exactly when [next] has the very entries of
    [current]. *)
Theorem shallowEqual_decides_same_entries current next :
  defined current →
  (shallowEqual_of current next = true
   ↔ dom (props next) = dom (props current)
     ∧ ∀ k v, props current !! k = Some v → strict_eq v (get_of next k) = true)
  ∧ (nan_free current = true →
     (shallowEqual_of current next = true ↔ props next = props current)).
Proof.
  intros Hdef. split; [split|].
  - intros Heq. split; [by rewrite (shallowEqual_of_defined _ _ Hdef Heq)|].
    intros k v Hk. apply andb_prop in Heq as [_ Hall].
    rewrite forallb_forall in Hall. rewrite <- (get_of_Some _ _ _ Hk).
    apply Hall, list_elem_of_In, elem_of_keys_of. eauto.
  - intros [Hdom Hall]. unfold shallowEqual_of. apply andb_true_intro. split.
    + apply bool_decide_eq_true. by rewrite !length_keys_of, <- !size_dom, Hdom.
    + apply forallb_forall. intros k [v Hk]%list_elem_of_In%elem_of_keys_of.
      rewrite (get_of_Some _ _ _ Hk). by apply Hall.
  - intros Hnan. split.
    + by apply shallowEqual_of_defined.
    + intros Hsame. by apply shallowEqual_of_same_props.
Qed.

Lemma shallowEqual_decides_same_entries_witness :
  let current := Obj ClsObject 0 {[KName "a" := VNum 1; KName "b" := VNull]} in
  let next := Obj ClsArray 7 {[KName "a" := VNum 1; KName "b" := VNull]} in
  defined current
  ∧ (shallowEqual_of current next = true
     ↔ dom (props next) = dom (props current)
       ∧ ∀ k v, props current !! k = Some v → strict_eq v (get_of next k) = true)
  ∧ (nan_free current = true →
     (shallowEqual_of current next = true ↔ props next = props current)).
Proof.
  cbv zeta. split; [by_decision|].
  apply shallowEqual_decides_same_entries. by_decision.
Defined.

(** X2.  [pickBy], lines 15-22.  The result is a plain object, also when the
    collection is an array; it holds exactly the entries of the collection
    that satisfy the predicate, under their keys and with their values;
    picking again with the same predicate changes nothing. *)
Theorem pickBy_selects collection predicate :
  pickBy_of collection predicate
  = Obj ClsObject 0
      (base.filter (λ kv, predicate kv.2 kv.1 = true) (props collection))
  ∧ (∀ k v, props (pickBy_of collection predicate) !! k = Some v
            ↔ props collection !! k = Some v ∧ predicate v k = true)
  ∧ pickBy_of (pickBy_of collection predicate) predicate
    = pickBy_of collection predicate.
Proof.
  assert (Hlook : ∀ c k v, props (pickBy_of c predicate) !! k = Some v
            ↔ props c !! k = Some v ∧ predicate v k = true).
  { intros c k v. rewrite pickBy_of_lookup.
    destruct (props c !! k) as [w|]; [destruct (predicate w k) eqn:Hp|];
      (split; [intros ?; simplify_eq; auto|intros [? ?]; simplify_eq; congruence]). }
  assert (Hlen : ∀ c, alen (pickBy_of c predicate) = 0).
  { intros c. unfold pickBy_of.
    assert (Hgen : ∀ ks acc, cls acc = ClsObject →
      alen (foldl (λ acc key, if predicate (get_of c key) key
                              then set_prop key (get_of c key) acc else acc) acc ks)
      = alen acc).
    { induction ks as [|k ks IH]; intros acc Hacc; simpl; [done|].
      destruct (predicate (get_of c k) k); [|by apply IH].
      rewrite IH by done. simpl. by rewrite Hacc. }
    by rewrite Hgen. }
  split_and!.
  - apply obj_eq; [apply pickBy_of_cls|apply Hlen|]. simpl.
    apply map_eq. intros k. apply option_eq. intros v.
    rewrite Hlook, map_lookup_filter_Some. done.
  - apply Hlook.
  - apply obj_eq; [by rewrite !pickBy_of_cls|by rewrite !Hlen|].
    apply map_eq. intros k. apply option_eq. intros v.
    rewrite !Hlook. tauto.
Qed.

Lemma mapValues_pure_loop (f : val → key → val) l o h ks acc :
  h !! l = Some o →
  reduceM
    (λ acc key h1,
       '(v, h2) ← (λ value key h', Some (f value key, h')) (get h1 (VRef l) key) key h1;
       Some (set_prop key v acc, h2))
    ks acc h
  = Some (foldl (λ acc key, set_prop key (f (get_of o key) key) acc) acc ks, h).
Proof.
  intros Hl. revert acc. induction ks as [|k ks IH]; intros acc; simpl; [done|].
  rewrite IH. unfold get. by rewrite (obj_at_ref _ _ _ Hl).
Qed.

Lemma alen_assignments_plain (f : key → val) (ks : list key) (o : obj) :
  cls o ≠ ClsArray →
  alen (foldl (λ acc key, set_prop key (f key) acc) o ks) = alen o.
Proof.
  revert o. induction ks as [|k ks IH]; intros o Hcls; simpl; [done|].
  rewrite IH by done. simpl. by destruct (cls o).
Qed.

(** X3.  [mapValues], lines 9-13, with a callback that does not touch the
    store.  The result is a new plain object with the keys of the
    collection, each holding the callback's value for the entry; the
    collection and every other object are left as they were. *)
Theorem mapValues_maps_entries (f : val → key → val) l o h :
  h !! l = Some o →
  ∃ l',
    mapValues (VRef l) (λ value key h', Some (f value key, h')) h
    = Some (VRef l',
            <[l' := Obj ClsObject 0 (map_imap (λ k v, Some (f v k)) (props o))]> h)
    ∧ h !! l' = None.
Proof.
  intros Hl. exists (fresh (dom h)). split; [|apply fresh_None].
  unfold mapValues, keys. rewrite (obj_at_ref _ _ _ Hl).
  rewrite (mapValues_pure_loop f l o h _ _ Hl). cbn [mbind option_bind]. unfold alloc.
  do 3 f_equal.
  pose proof (assignments_cls (λ key, f (get_of o key) key) (λ _, true)
                (keys_of o) empty_object) as Hcls.
  pose proof (assignments_lookup (λ key, f (get_of o key) key) (λ _, true)
                (keys_of o) empty_object) as Hlook.
  cbv beta iota in Hcls, Hlook.
  apply obj_eq.
  - exact Hcls.
  - by rewrite alen_assignments_plain.
  - cbn [props]. apply map_eq. intros k. rewrite Hlook, map_lookup_imap.
    destruct (props o !! k) as [v|] eqn:Hk; simpl.
    + rewrite decide_True; [by rewrite (get_of_Some _ _ _ Hk)|].
      split; [|done]. apply elem_of_keys_of. eauto.
    + rewrite decide_False; [done|]. intros [Hin _].
      apply elem_of_keys_of in Hin as [? ?]. congruence.
Qed.

Lemma mapValues_maps_entries_witness :
  let f := λ (v : val) (k : key), if decide (k = KName "x") then VStr "x" else v in
  let o := obj_at heap_with_date (VRef 2%positive) in
  heap_with_date !! 2%positive = Some o
  ∧ props o !! KName "x" = Some (VNum 1)
  ∧ ∃ l',
      mapValues (VRef 2%positive) (λ value key h', Some (f value key, h')) heap_with_date
      = Some (VRef l',
              <[l' := Obj ClsObject 0 (map_imap (λ k v, Some (f v k)) (props o))]>
                heap_with_date)
      ∧ heap_with_date !! l' = None.
Proof.
  cbv zeta. split_and!; [by_evaluation..|].
  apply (mapValues_maps_entries
           (λ (v : val) (k : key), if decide (k = KName "x") then VStr "x" else v)
           2%positive (obj_at heap_with_date (VRef 2%positive)) heap_with_date).
  by_evaluation.
Defined.

Lemma omap_lookup_all (l : list val) (pre : list val) :
  omap (λ i, (pre ++ l) !! i) (seq (length pre) (length l)) = l.
Proof.
  revert pre. induction l as [|a l IH]; intros pre; simpl; [done|].
  rewrite list_lookup_middle by done. f_equal.
  specialize (IH (pre ++ [a])). rewrite <- app_assoc in IH. simpl in IH.
  rewrite length_app in IH. simpl in IH. by rewrite Nat.add_1_r in IH.
Qed.

Lemma omap_agree {A B : Type} (f g : A → option B) (l : list A) :
  (∀ x, x ∈ l → f x = g x) → omap f l = omap g l.
Proof.
  induction l as [|x l IH]; intros Hfg; [done|]. cbn [omap list_omap].
  rewrite (Hfg x), IH; [done| |by left]. intros y Hy. apply Hfg. by right.
Qed.

Lemma omap_sublist {A B : Type} (f g : A → option B) (l : list A) :
  (∀ x v, f x = Some v → g x = Some v) → omap f l `sublist_of` omap g l.
Proof.
  intros Hfg. induction l as [|x l IH]; [done|]. cbn [omap list_omap].
  destruct (f x) as [v|] eqn:Hf.
  - rewrite (Hfg _ _ Hf). by apply sublist_skip.
  - destruct (g x); [by apply sublist_cons|done].
Qed.

Lemma omap_seq_lookup {B : Type} (f : nat → option B) (a n j : nat) (v : B) :
  omap f (seq a n) !! j = Some v → ∃ i, a + j ≤ i ∧ i < a + n ∧ f i = Some v.
Proof.
  revert a j. induction n as [|n IH]; intros a j; cbn [seq omap list_omap]; [done|].
  destruct (f a) as [w|] eqn:Hf.
  - destruct j as [|j]; simpl.
    + intros [= ->]. exists a. split_and!; [lia..|done].
    + intros (i & ? & ? & ?)%IH. exists i. split_and!; [lia..|done].
  - intros (i & ? & ? & ?)%IH. exists i. split_and!; [lia..|done].
Qed.

Lemma elements_array_of_list vs : elements (array_of_list vs) = vs.
Proof.
  unfold elements. cbn [alen array_of_list].
  etrans; [|exact (omap_lookup_all vs [])]. cbn [length app].
  apply omap_agree. intros i _. by rewrite array_of_list_lookup.
Qed.

Lemma proper_array_of_list vs : proper_sequence (array_of_list vs).
Proof.
  split_and!.
  - done.
  - intros k v Hk. rewrite array_of_list_lookup in Hk.
    destruct k as [i|]; [|done]. cbn. by apply lookup_lt_Some in Hk.
  - apply forallb_forall. intros i Hi%in_seq. apply bool_decide_eq_true.
    rewrite array_of_list_lookup. apply lookup_lt_is_Some. cbn in Hi. lia.
Qed.

(** X5.  [filter], lines 31-34, on an array.  Whatever holes the array has, the
    result is an array without holes; its elements are the elements of the
    array that satisfy the predicate, in their order: the indices of the
    elements after a dropped one shift down. *)
Theorem filter_compacts_sequences collection predicate :
  cls collection = ClsArray →
  let kept := filter_of collection predicate in
  proper_sequence kept
  ∧ alen kept = length (elements kept)
  ∧ elements kept `sublist_of` elements collection
  ∧ (∀ v, v ∈ elements kept
          ↔ ∃ i, i < alen collection ∧ props collection !! KIdx i = Some v
                 ∧ predicate v (KIdx i) = true)
  ∧ (∀ j v, props kept !! KIdx j = Some v →
            ∃ i, j ≤ i ∧ props collection !! KIdx i = Some v).
Proof.
  intros Hcls kept. unfold kept, filter_of. rewrite Hcls. unfold Array_filter.
  set (pick := λ i, match props collection !! KIdx i with
                    | Some v => if predicate v (KIdx i) then Some v else None
                    | None => None
                    end).
  rewrite elements_array_of_list. split_and!.
  - apply proper_array_of_list.
  - done.
  - apply omap_sublist. intros i v. unfold pick.
    destruct (props collection !! KIdx i) as [w|]; [|done].
    by destruct (predicate w (KIdx i)).
  - intros v. rewrite list_elem_of_omap. unfold pick. split.
    + intros (i & Hi%elem_of_seq & Hp). exists i.
      destruct (props collection !! KIdx i) as [w|]; [|done].
      destruct (predicate w (KIdx i)) eqn:Hw; [|done].
      injection Hp as ->. split_and!; [lia|done..].
    + intros (i & Hi & Hv & Hp). exists i. rewrite Hv, Hp.
      split; [|done]. apply elem_of_seq. lia.
  - intros j v. rewrite array_of_list_lookup. intros Hj.
    apply omap_seq_lookup in Hj as (i & Hi & _ & Hp). exists i.
    unfold pick in Hp. destruct (props collection !! KIdx i) as [w|]; [|done].
    destruct (predicate w (KIdx i)); [|done]. injection Hp as ->.
    split; [lia|done].
Qed.

Lemma filter_compacts_sequences_witness :
  let predicate := λ (v : val) (_ : key), negb (strict_eq v (VNum 3)) in
  let kept := filter_of array_with_hole predicate in
  cls array_with_hole = ClsArray
  ∧ elements kept = [VNum 1; VNum 4]
  ∧ proper_sequence kept
  ∧ alen kept = length (elements kept)
  ∧ elements kept `sublist_of` elements array_with_hole
  ∧ (∀ v, v ∈ elements kept
          ↔ ∃ i, i < alen array_with_hole ∧ props array_with_hole !! KIdx i = Some v
                 ∧ predicate v (KIdx i) = true)
  ∧ (∀ j v, props kept !! KIdx j = Some v →
            ∃ i, j ≤ i ∧ props array_with_hole !! KIdx i = Some v).
Proof.
  cbv zeta. split; [by_evaluation|]. split; [by_evaluation|].
  apply (filter_compacts_sequences array_with_hole). by_evaluation.
Defined.

(** ** Termination *)

(** X6.  Lines 38-62.  The recursion descends along the changes only: when the
    changes are finite (they nest no deeper than the fuel) and none of
    their collections has an entry named [length], a marked one apart,
    the call returns, whatever [current] is, cyclic structures included. *)
Theorem merge_terminates fuel current changes h :
  closed h →
  Forall (λ next, val_in h next ∧ fits fuel h next = true
                  ∧ length_free fuel h next = true) changes →
  is_Some (deepMergeChanges fuel current changes h).
Proof.
  intros Hclosed Hall. rewrite deepMergeChanges_unfold.
  assert (Hgen : ∀ h' current, h ⊆ h' →
            is_Some (reduceM (reducer (nested fuel)) changes current h')).
  { induction Hall as [|next changes (Hnext & Hfits & _) _ IH]; intros h' cur Hsub;
      [by eexists|].
    destruct (reducer_nested_total fuel cur next h' h Hsub Hclosed Hnext Hfits)
      as [[r h1] Hrun].
    cbn [reduceM]. rewrite Hrun. cbn [mbind option_bind].
    apply IH. etrans; [exact Hsub|].
    eapply reducer_frame; [|exact Hrun]. intros ?????. apply nested_frame. }
  by apply Hgen.
Qed.

Lemma merge_terminates_witness :
  closed heap_with_cycle
  ∧ Forall (λ next, val_in heap_with_cycle next ∧ fits 2 heap_with_cycle next = true
                    ∧ length_free 2 heap_with_cycle next = true)
           [VRef 3%positive]
  ∧ lookup_path heap_with_cycle (VRef 1%positive) [KName "self"; KName "self"]
    = Some (VRef 1%positive)
  ∧ is_Some (deepMergeChanges 2 (VRef 1%positive) [VRef 3%positive] heap_with_cycle).
Proof.
  split_and!; [by_decision|by_decision|by_evaluation|].
  apply merge_terminates; by_decision.
Defined.

(** ** What one merge of two collections returns *)

(** One merge of two collections, with fuel that suffices: the call
    returns, and the object it builds is [filteredCurrent] overwritten
    with the results of the nested merges. *)
Lemma merge_of_collections fuel lc oc ln on h :
  h !! lc = Some oc → is_coll oc = true →
  h !! ln = Some on → is_coll on = true →
  closed h → fits fuel h (VRef ln) = true →
  ∃ r h' lm mapped,
    let merged := assign_of (filteredCurrent_of oc on) mapped in
    deepMergeChanges fuel (VRef lc) [VRef ln] h = Some (r, h')
    ∧ h ⊆ h' ∧ h !! lm = None ∧ h' !! lm = Some merged
    ∧ r = (if shallowEqual_of oc merged then VRef lc else VRef lm)
    ∧ obj_at h' r = (if shallowEqual_of oc merged then oc else merged)
    ∧ (∀ k, is_Some (props mapped !! k) ↔ is_Some (props (filteredNext_of on) !! k))
    ∧ (∀ k rk, props mapped !! k = Some rk →
         ∃ hi hj, h ⊆ hi ∧ nested fuel (get_of oc k) (get_of on k) hi = Some (rk, hj)).
Proof.
  intros Hlc Hoc Hln Hon Hclosed Hfits.
  assert (Hc : collection h (VRef lc) = true)
    by by rewrite (collection_is_coll _ _ _ Hlc).
  assert (Hn : collection h (VRef ln) = true)
    by by rewrite (collection_is_coll _ _ _ Hln).
  assert (Hframe : ∀ c v hi r hj, nested fuel c v hi = Some (r, hj) → hi ⊆ hj)
    by (intros ?????; apply nested_frame).
  destruct (reducer_nested_total fuel (VRef lc) (VRef ln) h h)
    as [[r h'] Hrun]; [done|done|by simpl; rewrite Hln|done|].
  pose proof (reducer_frame _ _ _ _ _ _ Hframe Hrun) as Hhh'.
  destruct (reducer_collections (nested fuel) Hframe _ _ _ _ _ Hc Hn Hrun)
    as (lm & l4 & rs & h3 & h4 & Hh3 & Hlm & _ & Hchain & _ & Hh' & Hr).
  rewrite (obj_at_ref _ _ _ Hlc), (obj_at_ref _ _ _ Hln) in *.
  set (fn := filteredNext_of on) in *.
  assert (Hlm' : h' !! lm = Some (assign_of (filteredCurrent_of oc on) (mapped_of rs)))
    by (subst h'; apply lookup_insert_eq).
  assert (Hdom : ∀ k, is_Some (props (mapped_of rs) !! k) ↔ is_Some (props fn !! k)).
  { intros k. rewrite <- !not_eq_None_Some.
    rewrite (mapped_lookup_chain _ _ _ _ _ k (NoDup_keys_of _) Hchain).
    rewrite elem_of_keys_of, <- not_eq_None_Some. tauto. }
  exists r, h', lm, (mapped_of rs). cbv zeta.
  rewrite deepMergeChanges_single. split_and!; try done.
  - subst r. by eapply result_object.
  - intros k rk Hk. pose proof (mapped_of_lookup_Some _ _ _ Hk) as Hin.
    destruct (chain_lookup _ _ _ _ _ _ _
                (λ k hi r hj, Hframe (get_of oc k) (get_of fn k) hi r hj) Hchain Hin)
      as (hi & hj & Hhi & _ & Hcall).
    exists hi, hj. split; [by etrans|].
    destruct (proj1 (Hdom k) (ex_intro _ rk Hk)) as [v Hv].
    rewrite (get_of_Some _ _ _ Hv) in Hcall.
    apply filteredNext_of_lookup in Hv as [Hv _]. by rewrite (get_of_Some _ _ _ Hv).
Qed.

(** What any run on two collections returns, without assumptions on the
    fuel. *)
Lemma merge_outcome fuel current next h r h' :
  isCollection h current = Some true → isCollection h next = Some true →
  deepMergeChanges fuel current [next] h = Some (r, h') →
  ∃ lc oc on lm mapped,
    let merged := assign_of (filteredCurrent_of oc on) mapped in
    current = VRef lc ∧ h !! lc = Some oc ∧ obj_at h next = on
    ∧ is_coll oc = true ∧ is_coll on = true
    ∧ h ⊆ h' ∧ h !! lm = None ∧ h' !! lm = Some merged
    ∧ (∀ k, is_Some (props mapped !! k) ↔ is_Some (props (filteredNext_of on) !! k))
    ∧ r = (if shallowEqual_of oc merged then current else VRef lm).
Proof.
  intros Hc%isCollection_returns Hn%isCollection_returns.
  rewrite deepMergeChanges_single. intros Hrun.
  assert (Hframe : ∀ c v hi r hj, nested fuel c v hi = Some (r, hj) → hi ⊆ hj)
    by (intros ?????; apply nested_frame).
  pose proof (reducer_frame _ _ _ _ _ _ Hframe Hrun) as Hhh'.
  destruct (reducer_collections (nested fuel) Hframe _ _ _ _ _ Hc Hn Hrun)
    as (lm & l4 & rs & h3 & h4 & Hh3 & Hlm & _ & Hchain & _ & Hh' & Hr).
  destruct (collection_Some _ _ Hc) as (lc & oc & -> & Hlc & Hcc).
  destruct (collection_Some _ _ Hn) as (ln & on & -> & Hln & Hcn).
  rewrite (obj_at_ref _ _ _ Hlc), (obj_at_ref _ _ _ Hln) in *.
  exists lc, oc, on, lm, (mapped_of rs). cbv zeta.
  split_and!; try done.
  - subst h'. apply lookup_insert_eq.
  - intros k. rewrite <- !not_eq_None_Some.
    rewrite (mapped_lookup_chain _ _ _ _ _ k (NoDup_keys_of _) Hchain).
    rewrite elem_of_keys_of, <- not_eq_None_Some. tauto.
Qed.

Lemma filteredCurrent_of_cls oc on :
  cls (filteredCurrent_of oc on)
  = if bool_decide (cls oc = ClsArray) then ClsArray else ClsObject.
Proof.
  unfold filteredCurrent_of, filter_of.
  destruct (cls oc) eqn:Hoc; simpl; try apply pickBy_of_cls.
  by destruct (bool_decide (cls on = ClsArray)).
Qed.

(** The object built is a collection again when it is an array, and when
    the change writes no property [constructor]. *)
Lemma merged_is_coll oc on mapped :
  is_coll oc = true →
  cls oc = ClsArray ∨ props (filteredNext_of on) !! KName "constructor" = None →
  (∀ k, is_Some (props mapped !! k) ↔ is_Some (props (filteredNext_of on) !! k)) →
  is_coll (assign_of (filteredCurrent_of oc on) mapped) = true.
Proof.
  intros Hcc Hctor Hdom.
  destruct (decide (cls oc = ClsArray)) as [Hoc|Hoc].
  { apply is_coll_array. by rewrite assign_of_cls, filteredCurrent_of_cls, bool_decide_true. }
  destruct Hctor as [?|Hctor]; [done|].
  assert (Hown : props (assign_of (filteredCurrent_of oc on) mapped) !! KName "constructor"
                 = if strict_eq (get_of on (KName "constructor")) VOmit
                   then None else props oc !! KName "constructor").
  { rewrite assign_of_lookup.
    assert (Hnone : props mapped !! KName "constructor" = None).
    { apply eq_None_not_Some. rewrite Hdom, Hctor. by intros [w Hw]. }
    rewrite Hnone. unfold filteredCurrent_of, filter_of.
    rewrite (bool_decide_false (cls oc = ClsArray)) by done. cbn [andb].
    assert (Hpick : props (pickBy_of oc (λ _ key, negb (strict_eq (get_of on key) VOmit)))
                      !! KName "constructor"
                    = if strict_eq (get_of on (KName "constructor")) VOmit
                      then None else props oc !! KName "constructor").
    { rewrite pickBy_of_lookup.
      destruct (props oc !! KName "constructor");
        by destruct (strict_eq (get_of on (KName "constructor")) VOmit). }
    by destruct (cls oc). }
  unfold is_coll, constructor_of in Hcc |- *. rewrite Hown.
  rewrite assign_of_cls, filteredCurrent_of_cls, (bool_decide_false (cls oc = ClsArray)) by done.
  rewrite (bool_decide_false (cls oc = ClsArray)) in Hcc by done.
  destruct (strict_eq (get_of on (KName "constructor")) VOmit); [done|].
  destruct (props oc !! KName "constructor") as [[]|]; try done.
Qed.

(** X8.  Lines 41 and 51-58.  The merge of two collections is an array
    exactly when [current] is an array; otherwise it is [current] itself or
    a new plain object, whatever the kind of the change.  It is a
    collection again when [current] is an array, and when the change
    writes no property [constructor] (it has none of its own, or a marked
    one). *)
Theorem result_kind_follows_current fuel current next h r h' :
  isCollection h current = Some true → isCollection h next = Some true →
  deepMergeChanges fuel current [next] h = Some (r, h') →
  isArray h' r = isArray h current
  ∧ (r = current
     ∨ class_at h' r = Some (if isArray h current then ClsArray else ClsObject))
  ∧ (isArray h current = true
     ∨ props (filteredNext_of (obj_at h next)) !! KName "constructor" = None →
     isCollection h' r = Some true).
Proof.
  intros Hc Hn Hrun.
  destruct (merge_outcome _ _ _ _ _ _ Hc Hn Hrun)
    as (lc & oc & on & lm & mapped & -> & Hlc & <- & Hcc & Hcn & Hsub & Hlm & Hlm'
        & Hdom & ->).
  set (merged := assign_of _ mapped) in *.
  assert (Hcls : cls merged = if bool_decide (cls oc = ClsArray) then ClsArray else ClsObject).
  { unfold merged. by rewrite assign_of_cls, filteredCurrent_of_cls. }
  rewrite (isArray_ref _ _ _ Hlc).
  destruct (shallowEqual_of oc merged).
  - split_and!.
    + by rewrite (isArray_ref h' lc oc) by by eapply lookup_weaken.
    + by left.
    + intros _. apply isCollection_returns.
      rewrite (collection_ref h' lc oc); [done|by eapply lookup_weaken].
  - split_and!.
    + rewrite (isArray_ref _ _ _ Hlm'), Hcls. by case_bool_decide.
    + right. simpl. by rewrite Hlm', <- Hcls.
    + intros Hctor. apply isCollection_returns.
      rewrite (collection_ref _ _ _ Hlm'). apply merged_is_coll; [done| |done].
      destruct Hctor as [Harr|Hctor]; [left|by right].
      by apply bool_decide_eq_true in Harr.
Qed.

Lemma result_kind_follows_current_witness :
  let s := scene_record_by_sequence in
  isCollection (s_heap s) (s_current s) = Some true
  ∧ isCollection (s_heap s) (change s) = Some true
  ∧ isArray (s_heap s) (change s) = true
  ∧ call 1 s = Some (result 1 s, final 1 s)
  ∧ matches (final 1 s) (result 1 s) (LObj [fld "a" (N 1); idx 0 (N 5)]) = true
  ∧ isArray (final 1 s) (result 1 s) = isArray (s_heap s) (s_current s)
  ∧ (result 1 s = s_current s
     ∨ class_at (final 1 s) (result 1 s)
       = Some (if isArray (s_heap s) (s_current s) then ClsArray else ClsObject))
  ∧ (isArray (s_heap s) (s_current s) = true
     ∨ props (filteredNext_of (obj_at (s_heap s) (change s))) !! KName "constructor" = None →
     isCollection (final 1 s) (result 1 s) = Some true).
Proof.
  cbv zeta. do 5 (split; [by_evaluation|]).
  apply (result_kind_follows_current 1 (s_current scene_record_by_sequence)
           (change scene_record_by_sequence) (s_heap scene_record_by_sequence));
    by_evaluation.
Defined.

(** Why the proviso: merged with an array that has an own property
    [constructor] holding 5, the record [{a: 1}] becomes
    [{a: 1, constructor: 5}], whose [constructor] reads neither [Object]
    nor [null]. *)
Lemma own_constructor_ends_the_collection :
  let h := heap_with_marked_array in
  let run := deepMergeChanges 1 (VRef 1%positive) [VRef 2%positive] h in
  let r := (default (VUndefined, ∅) run).1 in
  let h' := (default (VUndefined, ∅) run).2 in
  isCollection h (VRef 1%positive) = Some true
  ∧ isCollection h (VRef 2%positive) = Some true
  ∧ run = Some (r, h')
  ∧ matches h' r (LObj [fld "a" (N 1); fld "constructor" (N 5)]) = true
  ∧ isCollection h' r = Some false.
Proof. cbv zeta. split_and!; by_evaluation. Qed.

(** X9.  Lines 41-58.  The merge of two collections returns [current] itself
    or an object created by the call: never the change, and never an
    object that existed before. *)
Theorem result_is_current_or_new fuel current next h r h' :
  isCollection h current = Some true → isCollection h next = Some true →
  deepMergeChanges fuel current [next] h = Some (r, h') →
  r = current ∨ ∃ l, r = VRef l ∧ h !! l = None ∧ is_Some (h' !! l).
Proof.
  intros Hc Hn Hrun.
  destruct (merge_outcome _ _ _ _ _ _ Hc Hn Hrun)
    as (lc & oc & on & lm & mapped & -> & Hlc & _ & _ & _ & Hsub & Hlm & Hlm' & _ & ->).
  destruct (shallowEqual_of oc _); [by left|right]. eauto.
Qed.

Lemma result_is_current_or_new_witness :
  let s := scene_nested_patch in
  isCollection (s_heap s) (s_current s) = Some true
  ∧ isCollection (s_heap s) (change s) = Some true
  ∧ call 2 s = Some (result 2 s, final 2 s)
  ∧ (result 2 s = s_current s
     ∨ ∃ l, result 2 s = VRef l ∧ s_heap s !! l = None ∧ is_Some (final 2 s !! l)).
Proof.
  cbv zeta. split_and!; [by_evaluation..|].
  apply (result_is_current_or_new 2 (s_current scene_nested_patch)
           (change scene_nested_patch) (s_heap scene_nested_patch)); by_evaluation.
Defined.

(** X10.  Line 58.  When no entry of [current] is NaN, a new object is
    returned only when it differs from [current] in a key or in the value
    under a key: the merge never returns a copy with the very entries of
    [current]. *)
Theorem copy_differs_from_current fuel current next h r h' :
  isCollection h current = Some true → isCollection h next = Some true →
  nan_free (obj_at h current) = true →
  deepMergeChanges fuel current [next] h = Some (r, h') →
  r ≠ current → props (obj_at h' r) ≠ props (obj_at h current).
Proof.
  intros Hc Hn Hnan Hrun Hne.
  destruct (merge_outcome _ _ _ _ _ _ Hc Hn Hrun)
    as (lc & oc & on & lm & mapped & -> & Hlc & _ & _ & _ & Hsub & Hlm & Hlm' & _ & ->).
  rewrite (obj_at_ref _ _ _ Hlc) in *.
  destruct (shallowEqual_of oc _) eqn:Hsh; [done|].
  rewrite (obj_at_ref _ _ _ Hlm'). intros Heq.
  by rewrite (shallowEqual_of_same_props oc _ Heq Hnan) in Hsh.
Qed.

Lemma copy_differs_from_current_witness :
  let s := scene_nested_patch in
  isCollection (s_heap s) (s_current s) = Some true
  ∧ isCollection (s_heap s) (change s) = Some true
  ∧ nan_free (obj_at (s_heap s) (s_current s)) = true
  ∧ call 2 s = Some (result 2 s, final 2 s)
  ∧ result 2 s ≠ s_current s
  ∧ props (obj_at (final 2 s) (result 2 s)) ≠ props (obj_at (s_heap s) (s_current s)).
Proof.
  cbv zeta. split_and!; [by_evaluation..|by vm_compute|].
  apply (copy_differs_from_current 2 (s_current scene_nested_patch)
           (change scene_nested_patch) (s_heap scene_nested_patch));
    [by_evaluation..|by vm_compute].
Defined.

(** ** Records *)

(** X11.  Lines 40-58, for a [current] that is not an array.  With fuel that
    suffices, and when no array nested in [current] is assigned the name
    [length], the call returns.  The object it builds is a plain object
    that has, under each key: nothing when the change holds the marker
    there; the nested merge of the entry of [current] with the entry of
    the change when the change holds another value; the entry of [current],
    untouched, when the change does not have the key.  The call returns
    that object or, by the short-circuit, [current]; either way the result
    reads like the built object under every key of [current], and has
    exactly its entries when no entry of [current] holds [undefined]. *)
Theorem record_merge fuel lc oc ln on h :
  h !! lc = Some oc → is_coll oc = true → cls oc ≠ ClsArray →
  h !! ln = Some on → is_coll on = true →
  closed h → fits fuel h (VRef ln) = true →
  keeps_length fuel h (VRef lc) (VRef ln) = true →
  ∃ r h' lm merged,
    deepMergeChanges fuel (VRef lc) [VRef ln] h = Some (r, h')
    ∧ h !! lm = None ∧ h' !! lm = Some merged
    ∧ r = (if shallowEqual_of oc merged then VRef lc else VRef lm)
    ∧ cls merged = ClsObject
    ∧ (∀ k, match props on !! k with
            | None => props merged !! k = props oc !! k
            | Some VOmit => props merged !! k = None
            | Some v =>
                ∃ rk hi hj,
                  props merged !! k = Some rk ∧ h ⊆ hi
                  ∧ nested fuel (get_of oc k) v hi = Some (rk, hj)
            end)
    ∧ (defined oc → props (obj_at h' r) = props merged)
    ∧ (∀ k, is_Some (props oc !! k) → get_of (obj_at h' r) k = get_of merged k).
Proof.
  intros Hlc Hoc Hrec Hln Hon Hclosed Hfits _.
  destruct (merge_of_collections fuel lc oc ln on h Hlc Hoc Hln Hon Hclosed Hfits)
    as (r & h' & lm & mapped & Hrun & Hsub & Hlm & Hlm' & Hr & Hro & Hdom & Hcalls).
  set (merged := assign_of (filteredCurrent_of oc on) mapped) in *.
  assert (Hfc : filteredCurrent_of oc on
                = pickBy_of oc (λ _ key, negb (strict_eq (get_of on key) VOmit))).
  { unfold filteredCurrent_of, filter_of.
    rewrite (bool_decide_false (cls oc = ClsArray)) by done. by destruct (cls oc). }
  exists r, h', lm, merged. rewrite Hro.
  split_and!; [done..| | |apply returned_object|apply returned_object].
  - unfold merged. by rewrite assign_of_cls, Hfc, pickBy_of_cls.
  - intros k. unfold merged. rewrite assign_of_lookup, Hfc, pickBy_of_lookup.
    destruct (props on !! k) as [v|] eqn:Hk.
    + destruct (decide (v = VOmit)) as [->|Hv].
      * assert (Hnone : props mapped !! k = None).
        { apply eq_None_not_Some. rewrite Hdom. intros [w Hw].
          apply filteredNext_of_lookup in Hw as [Hw ?]. congruence. }
        rewrite Hnone, (get_of_Some _ _ _ Hk). rewrite strict_eq_omit.
        rewrite bool_decide_true by done. by destruct (props oc !! k).
      * assert (Hsome : is_Some (props mapped !! k)).
        { apply Hdom. exists v. by apply filteredNext_of_lookup. }
        destruct Hsome as [rk Hrk]. rewrite Hrk.
        destruct (Hcalls k rk Hrk) as (hi & hj & Hhi & Hcall).
        rewrite (get_of_Some _ _ _ Hk) in Hcall.
        destruct v; try done; by exists rk, hi, hj.
    + assert (Hnone : props mapped !! k = None).
      { apply eq_None_not_Some. rewrite Hdom. intros [w Hw].
        apply filteredNext_of_lookup in Hw as [Hw ?]. congruence. }
      rewrite Hnone, (get_of_None _ _ Hk). rewrite strict_eq_omit.
      rewrite bool_decide_false by done. by destruct (props oc !! k).
Qed.

Lemma record_merge_witness :
  let s := scene_record_patch in
  let h := s_heap s in
  let oc := obj_at h (s_current s) in
  let on := obj_at h (change s) in
  s_current s = VRef 1%positive
  ∧ change s = VRef 2%positive
  ∧ matches (final 1 s) (result 1 s) (LObj [fld "x" (N 1); fld "z" (N 2)]) = true
  ∧ ∃ r h' lm merged,
      deepMergeChanges 1 (VRef 1%positive) [VRef 2%positive] h = Some (r, h')
      ∧ h !! lm = None ∧ h' !! lm = Some merged
      ∧ r = (if shallowEqual_of oc merged then VRef 1%positive else VRef lm)
      ∧ cls merged = ClsObject
      ∧ (∀ k, match props on !! k with
              | None => props merged !! k = props oc !! k
              | Some VOmit => props merged !! k = None
              | Some v =>
                  ∃ rk hi hj,
                    props merged !! k = Some rk ∧ h ⊆ hi
                    ∧ nested 1 (get_of oc k) v hi = Some (rk, hj)
              end)
      ∧ (defined oc → props (obj_at h' r) = props merged)
      ∧ (∀ k, is_Some (props oc !! k) → get_of (obj_at h' r) k = get_of merged k).
Proof.
  cbv zeta. split_and!; [by_evaluation..|].
  apply (record_merge 1 1%positive
           (obj_at (s_heap scene_record_patch) (s_current scene_record_patch))
           2%positive
           (obj_at (s_heap scene_record_patch) (change scene_record_patch))
           (s_heap scene_record_patch));
    [by_evaluation|by_evaluation|by vm_compute|by_evaluation|by_evaluation
    |by_decision|by_evaluation|by_evaluation].
Defined.

(** X12.  Lines 41-58, the marker on a key of a record.  When the change marks
    a key under which [current] holds a value other than [undefined], the
    call returns a new object, and that object does not have the key
    (with fuel that suffices, and when no array nested in [current] is
    assigned the name [length]). *)
Theorem marked_key_is_removed fuel lc oc ln on h k v :
  h !! lc = Some oc → is_coll oc = true → cls oc ≠ ClsArray →
  h !! ln = Some on → is_coll on = true →
  props on !! k = Some VOmit → props oc !! k = Some v → v ≠ VUndefined →
  closed h → fits fuel h (VRef ln) = true →
  keeps_length fuel h (VRef lc) (VRef ln) = true →
  ∃ l h',
    deepMergeChanges fuel (VRef lc) [VRef ln] h = Some (VRef l, h')
    ∧ h !! l = None
    ∧ props (obj_at h' (VRef l)) !! k = None.
Proof.
  intros Hlc Hoc Hrec Hln Hon Hmark Hk Hv Hclosed Hfits _.
  destruct (merge_of_collections fuel lc oc ln on h Hlc Hoc Hln Hon Hclosed Hfits)
    as (r & h' & lm & mapped & Hrun & Hsub & Hlm & Hlm' & Hr & Hro & Hdom & Hcalls).
  set (merged := assign_of (filteredCurrent_of oc on) mapped) in *.
  assert (Hnone : props merged !! k = None).
  { unfold merged. rewrite assign_of_lookup.
    assert (Hmk : props mapped !! k = None).
    { apply eq_None_not_Some. rewrite Hdom. intros [w Hw].
      apply filteredNext_of_lookup in Hw as [Hw ?]. congruence. }
    rewrite Hmk. unfold filteredCurrent_of, filter_of.
    rewrite (bool_decide_false (cls oc = ClsArray)) by done. cbn [andb].
    assert (Hpick : props (pickBy_of oc (λ _ key, negb (strict_eq (get_of on key) VOmit)))
                      !! k = None).
    { rewrite pickBy_of_lookup, Hk, (get_of_Some _ _ _ Hmark). unfold strict_eq.
      by rewrite bool_decide_true. }
    by destruct (cls oc). }
  assert (Hsh : shallowEqual_of oc merged = false).
  { destruct (shallowEqual_of oc merged) eqn:Hsh; [exfalso|done].
    pose proof (shallowEqual_of_reads oc merged k Hsh (ex_intro _ v Hk)) as Heq.
    rewrite (get_of_Some _ _ _ Hk), (get_of_None _ _ Hnone) in Heq. done. }
  rewrite Hsh in Hr, Hro. subst r. exists lm, h'. by rewrite Hro.
Qed.

Lemma marked_key_is_removed_witness :
  let s := scene_removal in
  let h := s_heap s in
  s_current s = VRef 1%positive
  ∧ change s = VRef 2%positive
  ∧ matches (final 1 s) (result 1 s) (LObj [fld "x" (N 1); fld "z" (N 1)]) = true
  ∧ ∃ l h',
      deepMergeChanges 1 (VRef 1%positive) [VRef 2%positive] h = Some (VRef l, h')
      ∧ h !! l = None
      ∧ props (obj_at h' (VRef l)) !! KName "y" = None.
Proof.
  cbv zeta. split_and!; [by_evaluation..|].
  apply (marked_key_is_removed 1 1%positive
           (obj_at (s_heap scene_removal) (s_current scene_removal))
           2%positive
           (obj_at (s_heap scene_removal) (change scene_removal))
           (s_heap scene_removal) (KName "y") (VNum 1));
    [by_evaluation|by_evaluation|by vm_compute|by_evaluation|by_evaluation
    |by_evaluation|by_evaluation|by vm_compute|by_decision|by_evaluation|by_evaluation].
Defined.

(** X13.  Lines 51-58, a value of the change that is not a collection.  It is
    written under its key, in an array as in a record, whatever [current]
    held there: the result reads that value under the key, provided
    [current] has the key or holds [undefined] nowhere (with fuel that
    suffices, and when no array of [current] is assigned the name
    [length]). *)
Theorem plain_entry_is_written fuel lc oc ln on h k v :
  h !! lc = Some oc → is_coll oc = true →
  h !! ln = Some on → is_coll on = true →
  props on !! k = Some v → v ≠ VOmit → isCollection h v = Some false →
  is_Some (props oc !! k) ∨ defined oc →
  closed h → fits fuel h (VRef ln) = true →
  keeps_length fuel h (VRef lc) (VRef ln) = true →
  ∃ r h',
    deepMergeChanges fuel (VRef lc) [VRef ln] h = Some (r, h')
    ∧ get_of (obj_at h' r) k = v.
Proof.
  intros Hlc Hoc Hln Hon Hk Hv Hplain%isCollection_returns Hhas Hclosed Hfits _.
  destruct (merge_of_collections fuel lc oc ln on h Hlc Hoc Hln Hon Hclosed Hfits)
    as (r & h' & lm & mapped & Hrun & Hsub & Hlm & Hlm' & Hr & Hro & Hdom & Hcalls).
  set (merged := assign_of (filteredCurrent_of oc on) mapped) in *.
  assert (Hmk : props mapped !! k = Some v).
  { destruct (proj2 (Hdom k)) as [rk Hrk].
    { exists v. by apply filteredNext_of_lookup. }
    destruct (Hcalls k rk Hrk) as (hi & hj & Hhi & Hcall).
    rewrite (get_of_Some _ _ _ Hk) in Hcall.
    destruct fuel as [|n]; [done|]. simpl in Hcall.
    rewrite deepMergeChanges_single, reducer_scalar in Hcall.
    - by injection Hcall as <- _.
    - rewrite (collection_live h hi v), Hplain; [apply andb_false_r| |done].
      by eapply closed_lookup. }
  assert (Hmerged : get_of merged k = v).
  { apply get_of_Some. unfold merged. by rewrite assign_of_lookup, Hmk. }
  exists r, h'. split; [done|]. rewrite Hro, <- Hmerged.
  destruct (returned_object oc merged) as [Hdef Hread].
  destruct Hhas as [Hin|Hd]; [by apply Hread|].
  unfold get_of. by rewrite (Hdef Hd).
Qed.

Lemma plain_entry_is_written_witness :
  let s := scene_record_patch in
  let h := s_heap s in
  s_current s = VRef 1%positive
  ∧ change s = VRef 2%positive
  ∧ ∃ r h',
      deepMergeChanges 1 (VRef 1%positive) [VRef 2%positive] h = Some (r, h')
      ∧ get_of (obj_at h' r) (KName "z") = VNum 2.
Proof.
  cbv zeta. split_and!; [by_evaluation..|].
  apply (plain_entry_is_written 1 1%positive
           (obj_at (s_heap scene_record_patch) (s_current scene_record_patch))
           2%positive
           (obj_at (s_heap scene_record_patch) (change scene_record_patch))
           (s_heap scene_record_patch) (KName "z") (VNum 2));
    [by_evaluation|by_evaluation|by_evaluation|by_evaluation|by_evaluation
    |by vm_compute|by_evaluation|left; by_decision|by_decision|by_evaluation|by_evaluation].
Defined.

(** ** Arrays *)

Lemma unmarked_filteredNext on :
  map_Forall (λ _ v, v ≠ VOmit) (props on) → props (filteredNext_of on) = props on.
Proof.
  intros Hnomark. apply map_eq. intros k. destruct (props on !! k) as [v|] eqn:Hv.
  - apply filteredNext_of_lookup. split; [done|]. by apply (Hnomark k v).
  - apply filteredNext_of_None. by left.
Qed.

(** X14.  Lines 44-56, for two arrays and a change without markers that may
    have holes.  With fuel that suffices, and when no array nested in
    [current] is assigned the name [length], the call returns.  The array it
    builds ends after the last element of the change; it has the nested
    merge under each index that the change has, and the element of
    [current] under each index below that end where the change has a
    hole. *)
Theorem sparse_sequence_merge fuel lc oc ln on h :
  h !! lc = Some oc → proper_sequence oc →
  h !! ln = Some on → cls on = ClsArray → index_keyed on →
  map_Forall (λ _ v, v ≠ VOmit) (props on) →
  closed h → fits fuel h (VRef ln) = true →
  keeps_length fuel h (VRef lc) (VRef ln) = true →
  ∃ r h' lm merged,
    deepMergeChanges fuel (VRef lc) [VRef ln] h = Some (r, h')
    ∧ h !! lm = None ∧ h' !! lm = Some merged
    ∧ r = (if shallowEqual_of oc merged then VRef lc else VRef lm)
    ∧ cls merged = ClsArray
    ∧ alen merged = bound (keys_of on)
    ∧ (∀ s, props merged !! KName s = None)
    ∧ (∀ i, match props on !! KIdx i with
            | Some v =>
                ∃ rk hi hj,
                  props merged !! KIdx i = Some rk ∧ h ⊆ hi
                  ∧ nested fuel (get_of oc (KIdx i)) v hi = Some (rk, hj)
            | None =>
                props merged !! KIdx i
                = if decide (i < bound (keys_of on)) then props oc !! KIdx i else None
            end).
Proof.
  intros Hlc Hprop Hln Hon Hidx Hnomark Hclosed Hfits _.
  pose proof Hprop as (Hoc & Hidxc & Hdense).
  assert (Hcc : is_coll oc = true) by by apply is_coll_array.
  assert (Hcn : is_coll on = true) by by apply is_coll_array.
  destruct (merge_of_collections fuel lc oc ln on h Hlc Hcc Hln Hcn Hclosed Hfits)
    as (r & h' & lm & mapped & Hrun & Hsub & Hlm & Hlm' & Hr & Hro & Hdom & Hcalls).
  pose proof (unmarked_filteredNext on Hnomark) as Hfn.
  assert (Hdom' : ∀ k, is_Some (props mapped !! k) ↔ is_Some (props on !! k))
    by (intros k; by rewrite Hdom, Hfn).
  rewrite (sequence_merge_refines oc on mapped) in * by
    (try done; intros k Hk; destruct (index_keyed_lookup on k Hidx Hk) as (i & -> & _); eauto).
  set (merged := spec_sequence_merge oc on mapped) in *.
  destruct (Array_filter_copy oc (λ _ key, negb (strict_eq (get_of on key) VOmit)) Hprop)
    as [Hcopy Hcopylen].
  { intros i v _. rewrite strict_eq_omit. rewrite bool_decide_false; [done|].
    unfold get_of. destruct (props on !! KIdx i) as [w|] eqn:Hw; [|done].
    simpl. by apply (Hnomark (KIdx i)). }
  assert (Hbm : bound (keys_of mapped) = bound (keys_of on)).
  { apply bound_same_indices. intros i. by rewrite !elem_of_keys_of. }
  assert (Hbf : bound (keys_of (filteredNext_of on)) = bound (keys_of on)).
  { apply bound_same_indices. intros i. by rewrite !elem_of_keys_of, Hfn. }
  assert (Hlook : ∀ k, props merged !! k
            = match props mapped !! k with
              | Some rk => Some rk
              | None => if below (Nat.min (bound (keys_of on)) (alen oc)) k
                        then props oc !! k else None
              end).
  { intros k. unfold merged, spec_sequence_merge.
    by rewrite assign_of_lookup, truncate_lookup, spec_length_bound, Hbf, Hcopy, Hcopylen. }
  exists r, h', lm, merged. split_and!; [done..| | | |].
  - unfold merged, spec_sequence_merge. by rewrite assign_of_cls.
  - unfold merged, spec_sequence_merge. rewrite alen_assign_of by done.
    rewrite Hbm. cbn [truncate alen]. rewrite spec_length_bound, Hbf. lia.
  - intros s. rewrite Hlook.
    destruct (props mapped !! KName s) as [rk|] eqn:Hk; [|done].
    destruct (proj1 (Hdom' _) (ex_intro _ rk Hk)) as [v Hv].
    by destruct (index_keyed_lookup on _ Hidx (ex_intro _ v Hv)) as (i & ? & _).
  - intros i. rewrite Hlook. destruct (props on !! KIdx i) as [v|] eqn:Hk.
    + destruct (proj2 (Hdom' (KIdx i)) (ex_intro _ v Hk)) as [rk Hrk]. rewrite Hrk.
      destruct (Hcalls _ rk Hrk) as (hi & hj & Hhi & Hcall).
      rewrite (get_of_Some _ _ _ Hk) in Hcall. by exists rk, hi, hj.
    + assert (Hnone : props mapped !! KIdx i = None).
      { apply eq_None_not_Some. rewrite Hdom', Hk. by intros [? ?]. }
      rewrite Hnone. cbn [below].
      destruct (decide (i < bound (keys_of on))) as [Hi|Hi].
      * case_bool_decide; [done|]. symmetry. apply eq_None_not_Some.
        intros (j & [= <-] & ?)%(index_keyed_lookup oc _ Hidxc). lia.
      * rewrite bool_decide_false; [done|lia].
Qed.

Lemma sparse_sequence_merge_witness :
  let h := heap_sparse_change in
  let oc := obj_at h (VRef 1%positive) in
  let on := obj_at h (VRef 2%positive) in
  matches (default ∅ (snd <$> deepMergeChanges 1 (VRef 1%positive) [VRef 2%positive] h))
          (default VUndefined
             (fst <$> deepMergeChanges 1 (VRef 1%positive) [VRef 2%positive] h))
          (LArr [N 1; N 9]) = true
  ∧ ∃ r h' lm merged,
      deepMergeChanges 1 (VRef 1%positive) [VRef 2%positive] h = Some (r, h')
      ∧ h !! lm = None ∧ h' !! lm = Some merged
      ∧ r = (if shallowEqual_of oc merged then VRef 1%positive else VRef lm)
      ∧ cls merged = ClsArray
      ∧ alen merged = bound (keys_of on)
      ∧ (∀ s, props merged !! KName s = None)
      ∧ (∀ i, match props on !! KIdx i with
              | Some v =>
                  ∃ rk hi hj,
                    props merged !! KIdx i = Some rk ∧ h ⊆ hi
                    ∧ nested 1 (get_of oc (KIdx i)) v hi = Some (rk, hj)
              | None =>
                  props merged !! KIdx i
                  = if decide (i < bound (keys_of on)) then props oc !! KIdx i else None
              end).
Proof.
  cbv zeta. split; [by_evaluation|].
  apply (sparse_sequence_merge 1 1%positive
           (obj_at heap_sparse_change (VRef 1%positive))
           2%positive
           (obj_at heap_sparse_change (VRef 2%positive))
           heap_sparse_change);
    [by_evaluation|by_decision|by_evaluation|by_evaluation|by_decision
    |by_decision|by_decision|by_evaluation|by_evaluation].
Defined.

(** X15.  Lines 40-58, for an array patched by a plain object, markers and
    values together.  With fuel that suffices, and when the patch assigns
    the name [length] neither to [current] nor to an array nested in it,
    the call returns.  The
    markers act first: the array that is built starts as the unmarked
    elements of [current], in order, so the elements after a marked one
    shift down.  Then each value of the patch is written at the index the
    patch names, as the nested merge with the element that [current] had
    under that index before the shift.  The length covers the kept
    elements and the largest index written. *)
Theorem sequence_patch_order fuel lc oc ln on h :
  h !! lc = Some oc → cls oc = ClsArray →
  h !! ln = Some on → is_coll on = true → cls on ≠ ClsArray →
  closed h → fits fuel h (VRef ln) = true →
  keeps_length fuel h (VRef lc) (VRef ln) = true →
  ∃ r h' lm merged,
    deepMergeChanges fuel (VRef lc) [VRef ln] h = Some (r, h')
    ∧ h !! lm = None ∧ h' !! lm = Some merged
    ∧ r = (if shallowEqual_of oc merged then VRef lc else VRef lm)
    ∧ cls merged = ClsArray
    ∧ alen merged = Nat.max (length (kept_elements oc on))
                            (bound (keys_of (filteredNext_of on)))
    ∧ (∀ k, match props (filteredNext_of on) !! k with
            | Some v =>
                ∃ rk hi hj,
                  props merged !! k = Some rk ∧ h ⊆ hi
                  ∧ nested fuel (get_of oc k) v hi = Some (rk, hj)
            | None =>
                props merged !! k
                = match k with
                  | KIdx i => kept_elements oc on !! i
                  | KName _ => None
                  end
            end).
Proof.
  intros Hlc Hoc Hln Hcn Hon Hclosed Hfits _.
  assert (Hcc : is_coll oc = true) by by apply is_coll_array.
  destruct (merge_of_collections fuel lc oc ln on h Hlc Hcc Hln Hcn Hclosed Hfits)
    as (r & h' & lm & mapped & Hrun & Hsub & Hlm & Hlm' & Hr & Hro & Hdom & Hcalls).
  assert (Hfc : filteredCurrent_of oc on = array_of_list (kept_elements oc on)).
  { unfold filteredCurrent_of, filter_of. rewrite Hoc.
    by rewrite (bool_decide_false (cls on = ClsArray)), andb_false_r. }
  rewrite Hfc in *.
  set (merged := assign_of (array_of_list (kept_elements oc on)) mapped) in *.
  assert (Hbm : bound (keys_of mapped) = bound (keys_of (filteredNext_of on))).
  { apply bound_same_indices. intros i. by rewrite !elem_of_keys_of. }
  exists r, h', lm, merged. split_and!; [done..| | |].
  - unfold merged. by rewrite assign_of_cls.
  - unfold merged. rewrite alen_assign_of by done. by rewrite Hbm.
  - intros k. unfold merged. rewrite assign_of_lookup, array_of_list_lookup.
    destruct (props (filteredNext_of on) !! k) as [v|] eqn:Hk.
    + destruct (proj2 (Hdom k) (ex_intro _ v Hk)) as [rk Hrk]. rewrite Hrk.
      destruct (Hcalls _ rk Hrk) as (hi & hj & Hhi & Hcall).
      apply filteredNext_of_lookup in Hk as [Hk _].
      rewrite (get_of_Some _ _ _ Hk) in Hcall. by exists rk, hi, hj.
    + assert (Hnone : props mapped !! k = None).
      { apply eq_None_not_Some. rewrite Hdom, Hk. by intros [? ?]. }
      by rewrite Hnone.
Qed.

Lemma sequence_patch_order_witness :
  let s := scene_mixed_top in
  let h := s_heap s in
  let oc := obj_at h (s_current s) in
  let on := obj_at h (change s) in
  s_current s = VRef 1%positive
  ∧ change s = VRef 2%positive
  ∧ matches (final 1 s) (result 1 s) (LArr [N 2; N 9]) = true
  ∧ ∃ r h' lm merged,
      deepMergeChanges 1 (VRef 1%positive) [VRef 2%positive] h = Some (r, h')
      ∧ h !! lm = None ∧ h' !! lm = Some merged
      ∧ r = (if shallowEqual_of oc merged then VRef 1%positive else VRef lm)
      ∧ cls merged = ClsArray
      ∧ alen merged = Nat.max (length (kept_elements oc on))
                              (bound (keys_of (filteredNext_of on)))
      ∧ (∀ k, match props (filteredNext_of on) !! k with
              | Some v =>
                  ∃ rk hi hj,
                    props merged !! k = Some rk ∧ h ⊆ hi
                    ∧ nested 1 (get_of oc k) v hi = Some (rk, hj)
              | None =>
                  props merged !! k
                  = match k with
                    | KIdx i => kept_elements oc on !! i
                    | KName _ => None
                    end
              end).
Proof.
  cbv zeta. split_and!; [by_evaluation..|].
  apply (sequence_patch_order 1 1%positive
           (obj_at (s_heap scene_mixed_top) (s_current scene_mixed_top))
           2%positive
           (obj_at (s_heap scene_mixed_top) (change scene_mixed_top))
           (s_heap scene_mixed_top));
    [by_evaluation|by_evaluation|by_evaluation|by_evaluation|by vm_compute
    |by_decision|by_evaluation|by_evaluation].
Defined.

(** ** Changes that change nothing *)

Lemma restates_scalar fuel g current next h :
  g ⊆ h → restates fuel g current next = true → collection h next = false →
  current = next.
Proof.
  intros Hsub Hres Hn. destruct next; destruct fuel; simpl in Hres;
    try (by apply bool_decide_eq_true in Hres).
  all: destruct (g !! l) as [on|] eqn:Hl; [|done];
    pose proof (lookup_weaken _ _ _ _ Hl Hsub) as Hl';
    rewrite (collection_is_coll _ _ _ Hl') in Hn; rewrite Hn in Hres;
    by apply bool_decide_eq_true in Hres.
Qed.

Lemma restates_collections fuel g current next h :
  g ⊆ h → restates fuel g current next = true → collection h next = true →
  ∃ lc oc ln on,
    current = VRef lc ∧ next = VRef ln ∧ h !! lc = Some oc ∧ h !! ln = Some on
    ∧ is_coll oc = true ∧ is_coll on = true ∧ nan_free oc = true
    ∧ (cls oc = ClsArray → proper_sequence oc
         ∧ (cls on = ClsArray → bound (keys_of on) = alen oc))
    ∧ ∀ k, is_Some (props on !! k) →
        is_Some (props oc !! k) ∧ props on !! k ≠ Some VOmit
        ∧ ∃ n, fuel = S n ∧ restates n g (get_of oc k) (get_of on k) = true.
Proof.
  intros Hsub Hres Hn.
  destruct (collection_Some _ _ Hn) as (ln & on & -> & Hln & Hcn).
  assert (Hg : ∃ on', g !! ln = Some on').
  { destruct fuel; simpl in Hres; destruct (g !! ln); eauto; done. }
  destruct Hg as [on' Hgn].
  pose proof (lookup_weaken _ _ _ _ Hgn Hsub) as Hln'. simplify_eq.
  pose proof Hcn as Hcon.
  assert (Hbody : ∃ lc oc, current = VRef lc ∧ g !! lc = Some oc
    ∧ (is_coll oc
       && nan_free oc
       && (if bool_decide (cls oc = ClsArray)
           then bool_decide (proper_sequence oc)
                && (if bool_decide (cls on = ClsArray)
                    then bool_decide (bound (keys_of on) = alen oc) else true)
           else true)
       && forallb (λ k,
            bool_decide (is_Some (props oc !! k))
            && negb (strict_eq (get_of on k) VOmit)
            && match fuel with
               | O => false
               | S n => restates n g (get_of oc k) (get_of on k)
               end) (keys_of on)) = true).
  { destruct fuel; simpl in Hres; rewrite Hgn, Hcon in Hres;
      (destruct current as [| | | | | | |lc]; try done);
      (destruct (g !! lc) as [oc|] eqn:Hlc; [|done]); by exists lc, oc. }
  destruct Hbody
    as (lc & oc & -> & Hgc & [[[Hcc Hnan]%andb_prop Harr]%andb_prop Hall]%andb_prop).
  exists lc, oc, ln, on. split_and!; try done.
  - by eapply lookup_weaken.
  - intros Hoc. rewrite bool_decide_true in Harr by done.
    apply andb_prop in Harr as [Hp Hb]. apply bool_decide_eq_true in Hp.
    split; [done|]. intros Hon. rewrite bool_decide_true in Hb by done.
    by apply bool_decide_eq_true in Hb.
  - intros k Hk. rewrite forallb_forall in Hall.
    apply elem_of_keys_of, list_elem_of_In, Hall in Hk as Hk'.
    apply andb_prop in Hk' as [[Hp Hm]%andb_prop Hrec].
    apply bool_decide_eq_true in Hp. split_and!; [done| |].
    + intros Hom. rewrite (get_of_Some _ _ _ Hom) in Hm. rewrite strict_eq_omit in Hm.
      by rewrite bool_decide_true in Hm.
    + destruct fuel as [|n]; [done|]. by exists n.
Qed.

Lemma restating_step fuel current next g h :
  g ⊆ h → restates fuel g current next = true →
  ∃ h', deepMergeChanges fuel current [next] h = Some (current, h').
Proof.
  revert current next g h.
  induction fuel as [fuel IH] using lt_wf_ind. intros current next g h Hsub Hres.
  rewrite deepMergeChanges_single.
  assert (Hframe : ∀ c v hi r hj, nested fuel c v hi = Some (r, hj) → hi ⊆ hj)
    by (intros ?????; apply nested_frame).
  destruct (collection h next) eqn:Hn.
  2:{ rewrite reducer_scalar by (rewrite Hn; apply andb_false_r).
      rewrite (restates_scalar _ _ _ _ _ Hsub Hres Hn). eauto. }
  destruct (restates_collections _ _ _ _ _ Hsub Hres Hn)
    as (lc & oc & ln & on & -> & -> & Hlc & Hln & Hcc & Hcn & Hnan & Harr & Hall).
  assert (Hc : collection h (VRef lc) = true)
    by by rewrite (collection_is_coll _ _ _ Hlc).
  assert (Hnomark : map_Forall (λ _ v, v ≠ VOmit) (props on)).
  { intros k v Hk ->. by destruct (Hall k (ex_intro _ _ Hk)) as (_ & ? & _). }
  pose proof (unmarked_filteredNext on Hnomark) as Hfn.
  assert (Hcall : ∀ k hi, is_Some (props on !! k) → h ⊆ hi →
            ∃ hj, nested fuel (get_of oc k) (get_of on k) hi = Some (get_of oc k, hj)).
  { intros k hi Hk Hhi. destruct (Hall k Hk) as (_ & _ & n & -> & Hrec).
    simpl. apply (IH n (Nat.lt_succ_diag_r n) _ _ g hi); [by etrans|done]. }
  destruct (reducer_total (nested fuel) Hframe (VRef lc) (VRef ln) h)
    as [[r h'] Hrun].
  { intros _ _ k hi Hk Hhi. rewrite (obj_at_ref _ _ _ Hln), Hfn in *.
    unfold get. rewrite (obj_at_ref _ _ _ Hlc).
    replace (get_of (filteredNext_of on) k) with (get_of on k)
      by (unfold get_of; by rewrite Hfn).
    destruct (Hcall k hi Hk Hhi) as [hj ->]. eauto. }
  rewrite Hrun. exists h'. do 2 f_equal.
  destruct (reducer_collections (nested fuel) Hframe _ _ _ _ _ Hc Hn Hrun)
    as (lm & l4 & rs & h3 & h4 & Hh3 & Hlm & _ & Hchain & _ & Hh' & Hr).
  rewrite (obj_at_ref _ _ _ Hlc), (obj_at_ref _ _ _ Hln) in *.
  assert (Hdom : ∀ k, is_Some (props (mapped_of rs) !! k) ↔ is_Some (props on !! k)).
  { intros k. rewrite <- !not_eq_None_Some.
    rewrite (mapped_lookup_chain _ _ _ _ _ k (NoDup_keys_of _) Hchain).
    rewrite elem_of_keys_of, <- not_eq_None_Some, Hfn. tauto. }
  assert (Hmapped : ∀ k rk, props (mapped_of rs) !! k = Some rk →
            props oc !! k = Some rk).
  { intros k rk Hk. pose proof (mapped_of_lookup_Some _ _ _ Hk) as Hin.
    destruct (chain_lookup _ _ _ _ _ _ _
                (λ k hi r hj, Hframe (get_of oc k) (get_of (filteredNext_of on) k) hi r hj)
                Hchain Hin)
      as (hi & hj & Hhi & _ & Hrk).
    assert (Hon : is_Some (props on !! k)) by (apply Hdom; eauto).
    replace (get_of (filteredNext_of on) k) with (get_of on k) in Hrk
      by (unfold get_of; by rewrite Hfn).
    destruct (Hcall k hi Hon (transitivity Hh3 Hhi)) as [hj' Hrk'].
    rewrite Hrk' in Hrk. injection Hrk as <- _.
    destruct (Hall k Hon) as ([v Hv] & _). by rewrite (get_of_Some _ _ _ Hv). }
  assert (Hkeep : ∀ k, negb (strict_eq (get_of on k) VOmit) = true).
  { intros k. rewrite strict_eq_omit. rewrite bool_decide_false; [done|].
    unfold get_of. destruct (props on !! k) as [w|] eqn:Hw; [|done].
    simpl. by apply (Hnomark k). }
  subst r. rewrite shallowEqual_of_same_props; [done| |done].
  assert (Hover : ∀ fc, props fc = props oc →
            props (assign_of fc (mapped_of rs)) = props oc).
  { intros fc Hfc. apply map_eq. intros k. rewrite assign_of_lookup, Hfc.
    destruct (props (mapped_of rs) !! k) as [rk|] eqn:Hk; [|done].
    symmetry. by apply Hmapped. }
  destruct (decide (cls oc = ClsArray)) as [Hoc|Hoc].
  - destruct (Harr Hoc) as [Hprop Hreach].
    destruct (Array_filter_copy oc (λ _ key, negb (strict_eq (get_of on key) VOmit)) Hprop)
      as [Hcopy Hcopylen]; [by intros|].
    destruct (decide (cls on = ClsArray)) as [Hon|Hon].
    + rewrite (sequence_merge_refines oc on (mapped_of rs)); try done.
      2:{ intros k Hk. destruct (Hall k Hk) as (Hkc & _).
          destruct (proper_sequence_keys oc k Hprop) as [Hidx _].
          destruct (Hidx Hkc) as (i & -> & _). eauto. }
      2:{ intros k. by rewrite Hdom, Hfn. }
      unfold spec_sequence_merge. apply Hover.
      apply map_eq. intros k.
      rewrite truncate_lookup, spec_length_bound, Hcopy, Hcopylen.
      replace (bound (keys_of (filteredNext_of on))) with (alen oc).
      2:{ rewrite <- (Hreach Hon). apply bound_same_indices.
          intros i. by rewrite !elem_of_keys_of, Hfn. }
      rewrite Nat.min_id. destruct (below (alen oc) k) eqn:Hb; [done|].
      symmetry. apply eq_None_not_Some.
      intros (i & -> & Hi)%(proper_sequence_keys oc k Hprop).
      cbn in Hb. by rewrite bool_decide_true in Hb.
    + apply Hover. unfold filteredCurrent_of, filter_of. rewrite Hoc.
      by rewrite (bool_decide_false (cls on = ClsArray)), andb_false_r.
  - apply Hover. unfold filteredCurrent_of, filter_of.
    rewrite (bool_decide_false (cls oc = ClsArray)) by done. cbn [andb].
    assert (Hpick : props (pickBy_of oc (λ _ key, negb (strict_eq (get_of on key) VOmit)))
                    = props oc).
    { apply map_eq. intros k. rewrite pickBy_of_lookup, Hkeep.
      by destruct (props oc !! k). }
    by destruct (cls oc).
Qed.

(** X16.  Lines 38-62.  Changes that restate [current] change nothing, and the
    call says so by returning [current] itself: the very reference, not a
    copy, however deep the changes reach. *)
Theorem restating_changes_return_current fuel current changes h :
  Forall (λ next, restates fuel h current next = true) changes →
  ∃ h', deepMergeChanges fuel current changes h = Some (current, h').
Proof.
  intros Hall.
  assert (Hgen : ∀ h1, h ⊆ h1 →
            ∃ h', deepMergeChanges fuel current changes h1 = Some (current, h')).
  2:{ by apply Hgen. }
  induction Hall as [|next changes Hnext _ IH]; intros h1 Hsub.
  - exists h1. by rewrite deepMergeChanges_unfold.
  - destruct (restating_step fuel current next h h1 Hsub Hnext) as [h2 Hstep].
    destruct (IH h2) as [h' Hrest].
    { etrans; [exact Hsub|]. by eapply deepMergeChanges_frame. }
    exists h'. change (next :: changes) with ([next] ++ changes).
    rewrite deepMergeChanges_unfold, reduceM_app, <- deepMergeChanges_unfold.
    rewrite Hstep. cbn [mbind option_bind]. by rewrite <- deepMergeChanges_unfold.
Qed.

Lemma restating_changes_return_current_witness :
  let s := scene_restated in
  Forall (λ next, restates 3 (s_heap s) (s_current s) next = true) (s_changes s)
  ∧ length (s_changes s) = 2
  ∧ ∃ h', call 3 s = Some (s_current s, h').
Proof.
  cbv zeta. split_and!; [by_decision|by_evaluation|].
  apply (restating_changes_return_current 3 (s_current scene_restated)
           (s_changes scene_restated) (s_heap scene_restated)).
  by_decision.
Defined.
